(** * Twilight Imperium board viewer: hex grid, deck assignment, renderer
      and interaction controller of [src/app/page.tsx].

    Integer quantities of the program (hex coordinates, the radius, array
    indices) are modelled in [Z] and [nat]; the continuous quantities of the
    view (zoom factor, pan offset, pointer positions) in the rationals [Q];
    the pixel projection and the canvas geometry, which use [Math.sqrt],
    [Math.cos] and [Math.sin], in the reals [R].  JavaScript numbers are
    thereby idealised: rounding and the non-finite doubles are outside the
    model. *)

From Stdlib Require Import ZArith QArith Qminmax Qround Lqa Reals Lra Lia String.
From stdpp Require Import base tactics option list sorting pretty.

Local Open Scope Z_scope.

(* ===================================================================== *)
(** * Part I: the program                                                 *)
(* ===================================================================== *)

(** ** Hex coordinates *)

(** [interface Hex { q; r; s }] *)
Record Hex : Type := mkHex { q : Z; r : Z; s : Z }.

Global Instance Hex_eq_dec : EqDecision Hex.
Proof. solve_decision. Defined.

(** [function createHex(q, r) { return { q, r, s: -q - r }; }] *)
Definition createHex (q r : Z) : Hex := {| q := q; r := r; s := - q - r |}.

(** ** Counted loops

    [for (let i = lo; i <= hi; i++) body(i)] visits [lo], [lo + 1], ...,
    [hi]: [hi - lo + 1] iterations when [lo <= hi] and none otherwise.
    [for_upto n i] runs [n] iterations from [i]; [for_range] fixes the trip
    count of the loop.  The lemma [for_range_unfold] below shows that
    [for_range] satisfies the loop's own equation (test, body, increment). *)
Fixpoint for_upto {St : Type} (n : nat) (i : Z) (body : Z -> St -> St) (st : St) : St :=
  match n with
  | O => st
  | S n' => for_upto n' (i + 1) body (body i st)
  end.

Definition for_range {St : Type} (lo hi : Z) (body : Z -> St -> St) (st : St) : St :=
  for_upto (Z.to_nat (hi - lo + 1)) lo body st.

(** ** Grid generator *)

(** [function generateHexGrid(radius)]: the accumulator [hexes] is the
    loop state, [hexes.push(h)] appends at the end. *)
Definition generateHexGrid (radius : Z) : list Hex :=
  for_range (- radius) radius
    (fun q hexes =>
       for_range (Z.max (- radius) (- q - radius)) (Z.min radius (- q + radius))
         (fun r hexes => hexes ++ [createHex q r])
         hexes)
    [].

(** ** Coordinate projection *)

(** The anonymous result type [{ x: number; y: number }] of [hexToPixel],
    also used for the pan offset handed to the renderer. *)
Module Pixel.
Record t : Type := mk { x : R; y : R }.
End Pixel.

Section Projection.
Local Open Scope R_scope.

(** [function hexToPixel(hex, size)] *)
Definition hexToPixel (hex : Hex) (size : R) : Pixel.t :=
  let x := size * (3 / 2) * IZR (q hex) in
  let y := size * sqrt 3 * (IZR (r hex) + IZR (q hex) / 2) in
  Pixel.mk x y.
End Projection.

(** ** Planet records and tiles *)

(** Modelled from the spec: the records of [./planets] (the module is not
    part of the sources); section 3 gives them a name and two integer
    statistics, the fields [interface Tile] declares besides [hex]. *)
Record Planet : Type := mkPlanet {
  planet_name : string;
  planet_resources : Z;
  planet_influence : Z
}.

(** [interface Tile { hex; name; resources; influence }].  A tile is built
    by an object spread; a field the spread source does not have is
    [undefined], which is [None] here. *)
Record Tile : Type := mkTile {
  tile_hex : Hex;
  tile_name : option string;
  tile_resources : option Z;
  tile_influence : option Z
}.

(** [{ ...planet, hex }], where [planet] may be [undefined]: spreading
    [undefined] copies nothing. *)
Definition spread (planet : option Planet) (hex : Hex) : Tile :=
  match planet with
  | Some p => {| tile_hex := hex;
                 tile_name := Some (planet_name p);
                 tile_resources := Some (planet_resources p);
                 tile_influence := Some (planet_influence p) |}
  | None => {| tile_hex := hex;
               tile_name := None; tile_resources := None; tile_influence := None |}
  end.

(** ** Renderer *)

(** Operations performed on the [CanvasRenderingContext2D], in program
    order; assignments to its properties are recorded like calls.  The font
    [`${px}px Arial`] is kept as its size and family. *)
Inductive canvas_op : Type :=
| clearRect (x y w h : R)
| beginPath
| lineTo (x y : R)
| closePath
| set_fillStyle (style : string)
| fill
| set_strokeStyle (style : string)
| set_lineWidth (w : R)
| stroke
| set_font (px : R) (family : string)
| set_textAlign (align : string)
| set_textBaseline (baseline : string)
| fillText (text : string) (x y : R).

(** JavaScript truthiness of a possibly undefined string. *)
Definition truthy (name : option string) : bool :=
  match name with
  | Some str => negb (String.eqb str "")
  | None => false
  end.

(** [String(n)] for an integer or [undefined]. *)
Definition String_of (n : option Z) : string :=
  match n with
  | Some z => pretty z
  | None => "undefined"
  end.

Section Renderer.
Local Open Scope R_scope.

(** [function drawHex(ctx, centerX, centerY, size)] *)
Definition drawHex (centerX centerY size : R) : list canvas_op :=
  let angles := (fun i : nat => (PI / 3) * INR i) <$> seq 0 6 in
  [beginPath]
    ++ ((fun angle =>
           let x := centerX + size * cos angle in
           let y := centerY + size * sin angle in
           lineTo x y) <$> angles)
    ++ [closePath; set_fillStyle "#091d66"; fill;
        set_strokeStyle "black"; set_lineWidth 1; stroke].

(** The canvas dimensions [{ width; height }]. *)
Record Canvas : Type := mkCanvas { width : R; height : R }.

(** Body of the loop [for (const tile of tiles)] of [renderGrid]. *)
Definition renderTile (size : R) (canvas : Canvas) (offset : Pixel.t)
    (tile : Tile) : list canvas_op :=
  let p := hexToPixel (tile_hex tile) size in
  let centerX := Pixel.x p + width canvas / 2 + Pixel.x offset in
  let centerY := Pixel.y p + height canvas / 2 + Pixel.y offset in
  drawHex centerX centerY size
    ++ (if truthy (tile_name tile) then
          [set_fillStyle "white";
           set_font (size / 6) "Arial";
           set_textAlign "center";
           set_textBaseline "middle";
           fillText (default "undefined"%string (tile_name tile))
                    centerX (centerY + (size / 2 + size / 7.5));
           fillText (String_of (tile_resources tile))
                    (centerX - 35) (centerY + (size / 3 + 10) - 10);
           fillText (String_of (tile_influence tile))
                    (centerX - 30) (centerY + (size / 3 + 10))]
        else []).

(** [function renderGrid(ctx, tiles, size, canvas, offset)]: the
    operations it performs on [ctx]. *)
Definition renderGrid (tiles : list Tile) (size : R) (canvas : Canvas)
    (offset : Pixel.t) : list canvas_op :=
  foldl (fun ctx tile => ctx ++ renderTile size canvas offset tile)
        [clearRect 0 0 (width canvas) (height canvas)]
        tiles.
End Renderer.

(** ** Arrays, [Math.random] and the program's effects

    Arrays are mutable and shared by reference: the store maps a location
    to the array's current contents.  [Math.random()] reads the next value
    of a tape of draws; a run of the program is determined by its tape. *)

Definition loc : Type := nat.

Section Effects.
Context {T : Type}.

Record world : Type := mkWorld {
  store : list (list T);
  tape : nat -> Q
}.

(** State-passing computations over the world. *)
Definition M (A : Type) : Type := world -> A * world.

Definition ret {A : Type} (a : A) : M A := fun w => (a, w).

Definition bind {A B : Type} (m : M A) (k : A -> M B) : M B :=
  fun w => let (a, w') := m w in k a w'.

(** [Math.random()] *)
Definition Math_random : M Q :=
  fun w => (tape w O, {| store := store w; tape := fun k => tape w (S k) |}).

(** A new array with the given contents; its location is fresh. *)
Definition alloc (a : list T) : M loc :=
  fun w => (length (store w), {| store := store w ++ [a]; tape := tape w |}).

(** Current contents of an array (a location in use always resolves). *)
Definition read (l : loc) : M (list T) :=
  fun w => (default [] (store w !! l), w).

Definition write (l : loc) (a : list T) : M unit :=
  fun w => (tt, {| store := <[l := a]> (store w); tape := tape w |}).
End Effects.

Global Arguments world : clear implicits.
Global Arguments M : clear implicits.

(** The sequencing notations [x ← m; k] and [m;; k] of stdpp. *)
Global Instance M_ret {T : Type} : MRet (M T) := fun A => @ret T A.
Global Instance M_bind {T : Type} : MBind (M T) := fun A B k m => @bind T A B m k.

(** [Math.floor(x * n)] for an array length or index bound [n]. *)
Definition floor_scaled (x : Q) (n : nat) : nat :=
  Z.to_nat (Qfloor (x * inject_Z (Z.of_nat n))).

(** [Array.prototype.map] with an effectful callback: the elements are
    visited in index order. *)
Fixpoint mapM {T A B : Type} (f : A -> M T B) (l : list A) : M T (list B) :=
  match l with
  | [] => mret []
  | a :: l' => b ← f a; bs ← mapM f l'; mret (b :: bs)
  end.

(** ** Shuffle *)

Section Shuffle.
Context {T : Type}.

(** [[copy[i], copy[j]] = [copy[j], copy[i]]]: both reads happen before
    the two writes.  In [shuffle] both indices are in range; outside the
    range the model leaves the array as it is. *)
Definition swap (copy : loc) (i j : nat) : M T unit :=
  a ← read copy;
  match a !! j, a !! i with
  | Some aj, Some ai => write copy (<[j := ai]> (<[i := aj]> a))
  | _, _ => mret tt
  end.

(** [for (let i = copy.length - 1; i > 0; i--)], entered at [i]. *)
Fixpoint shuffle_loop (copy : loc) (i : nat) : M T unit :=
  match i with
  | O => mret tt
  | S i' =>
      x ← Math_random;
      let j := floor_scaled x (i + 1) in
      swap copy i j;;
      shuffle_loop copy i'
  end.

(** [function shuffle<T>(array: T[]): T[]] *)
Definition shuffle (array : loc) : M T loc :=
  a ← read array;
  copy ← alloc a;
  shuffle_loop copy (length a - 1);;
  mret copy.

(** [arr.splice(start, 1)]: removes the element at [start], if any, and
    returns a new array holding what was removed. *)
Definition splice (arr : loc) (start : nat) : M T loc :=
  a ← read arr;
  write arr (delete start a);;
  alloc (take 1 (drop start a)).

(** [arr.splice(start, 1)[0]]: the removed element, [undefined] when
    nothing was removed. *)
Definition splice1 (arr : loc) (start : nat) : M T (option T) :=
  removed ← splice arr start;
  r ← read removed;
  mret (r !! O).
End Shuffle.

(** ** Board setup *)

(** The callback of [hexes.map((hex) => ...)] in [Home]; [planetDeck] is
    the shuffled deck it consumes. *)
Definition assign_tile (mecatol : Planet) (planetDeck : loc) (hex : Hex)
    : M Planet Tile :=
  if (q hex =? 0) && (r hex =? 0) then
    mret (spread (Some mecatol) hex)
  else
    x ← Math_random;
    deck ← read planetDeck;
    planet ← splice1 planetDeck (floor_scaled x (length deck));
    mret (spread planet hex).

(** [export default function Home()]: the tiles handed to [HexGrid].  The
    catalog [planets] and the centre record [mecatol] are the imports of
    [./planets]. *)
Definition Home (planets : loc) (mecatol : Planet) : M Planet (list Tile) :=
  let hexes := generateHexGrid 3 in
  planetDeck ← shuffle planets;
  mapM (assign_tile mecatol planetDeck) hexes.

(** ** Interaction controller *)

(** A position or offset [{ x; y }] of the view. *)
Module Point.
Record t : Type := mk { x : Q; y : Q }.
End Point.

(** The props of [HexGrid] (the tiles are passed separately). *)
Record Props : Type := mkProps { hexSize : Q; zoomSpeed : Q; panSpeed : Q }.

(** [hexSize = 75, zoomSpeed = 1, panSpeed = 2] *)
Definition default_props : Props :=
  {| hexSize := 75; zoomSpeed := 1; panSpeed := 2 |}.

(** The [useRef] cells of [HexGrid]. *)
Record Refs : Type := mkRefs {
  offset : Point.t;
  zoom : Q;
  frameRef : nat;
  isDragging : bool;
  lastMousePosition : Point.t
}.

(** [useRef({ x: 0, y: 0 })], [useRef(1)], [useRef(0)], [useRef(false)],
    [useRef({ x: 0, y: 0 })] *)
Definition initial_refs : Refs :=
  {| offset := Point.mk 0 0; zoom := 1; frameRef := 0;
     isDragging := false; lastMousePosition := Point.mk 0 0 |}.

Section Handlers.
Local Open Scope Q_scope.
Variable props : Props.

(** [const handleWheel = (event: WheelEvent) => ...] *)
Definition handleWheel (deltaY : Q) (refs : Refs) : Refs :=
  let delta := (if Qlt_le_dec deltaY 0 then 0.1 else - 0.1) * zoomSpeed props in
  {| offset := offset refs;
     zoom := Qmin (Qmax (zoom refs + delta) 0.5) 2;
     frameRef := frameRef refs;
     isDragging := isDragging refs;
     lastMousePosition := lastMousePosition refs |}.

(** [const handleMouseDown = (event: MouseEvent) => ...] *)
Definition handleMouseDown (clientX clientY : Q) (refs : Refs) : Refs :=
  {| offset := offset refs;
     zoom := zoom refs;
     frameRef := frameRef refs;
     isDragging := true;
     lastMousePosition := Point.mk clientX clientY |}.

(** [const handleMouseMove = (event: MouseEvent) => ...] *)
Definition handleMouseMove (clientX clientY : Q) (refs : Refs) : Refs :=
  if negb (isDragging refs) then refs
  else
    let dx := (clientX - Point.x (lastMousePosition refs)) * panSpeed props in
    let dy := (clientY - Point.y (lastMousePosition refs)) * panSpeed props in
    {| offset := Point.mk (Point.x (offset refs) + dx) (Point.y (offset refs) + dy);
       zoom := zoom refs;
       frameRef := frameRef refs;
       isDragging := isDragging refs;
       lastMousePosition := Point.mk clientX clientY |}.

(** [const handleMouseUp = () => ...] *)
Definition handleMouseUp (refs : Refs) : Refs :=
  {| offset := offset refs;
     zoom := zoom refs;
     frameRef := frameRef refs;
     isDragging := false;
     lastMousePosition := lastMousePosition refs |}.
End Handlers.

(** ** The browser: listener registry and frame scheduler *)

(** The closures the effect registers on the canvas. *)
Inductive listener : Type :=
| HandleWheel | HandleMouseDown | HandleMouseMove | HandleMouseUp.

Global Instance listener_eq_dec : EqDecision listener.
Proof. solve_decision. Defined.

(** The only callback ever passed to [requestAnimationFrame]. *)
Inductive callback : Type := Render.

(** Values passed to [cancelAnimationFrame]: a request handle, or (in the
    earlier draft of the component) the callback itself. *)
Inductive jsval : Type :=
| JNum (n : nat)
| JFun (cb : callback).

(** Conversion of the argument of [cancelAnimationFrame] to a handle: a
    function converts to [NaN], which becomes [0]. *)
Definition ToHandle (v : jsval) : nat :=
  match v with
  | JNum n => n
  | JFun _ => 0
  end.

(** The arguments of one call of [renderGrid]. *)
Record RenderCall : Type := mkRenderCall {
  call_size : Q;
  call_canvas : Point.t;
  call_offset : Point.t
}.

(** Component and browser state: the refs and state of [HexGrid], the
    listeners attached to the canvas, the animation-frame requests not yet
    run or cancelled, the last handle handed out, the viewport size, and
    the redraws made so far. *)
Record System : Type := mkSystem {
  refs : Refs;
  canvasSize : Point.t;
  listeners : list (string * listener);
  pending : list nat;
  last_handle : nat;
  window_inner : Point.t;
  drawn : list RenderCall
}.

Definition with_refs (f : Refs -> Refs) (sys : System) : System :=
  {| refs := f (refs sys); canvasSize := canvasSize sys;
     listeners := listeners sys; pending := pending sys;
     last_handle := last_handle sys; window_inner := window_inner sys;
     drawn := drawn sys |}.

(** [canvas.addEventListener(type, fn)]: a listener already attached for
    the type is not attached twice. *)
Definition addEventListener (type : string) (fn : listener) (sys : System) : System :=
  {| refs := refs sys; canvasSize := canvasSize sys;
     listeners := if decide ((type, fn) ∈ listeners sys) then listeners sys
                  else listeners sys ++ [(type, fn)];
     pending := pending sys;
     last_handle := last_handle sys; window_inner := window_inner sys;
     drawn := drawn sys |}.

(** [canvas.removeEventListener(type, fn)] *)
Definition removeEventListener (type : string) (fn : listener) (sys : System) : System :=
  {| refs := refs sys; canvasSize := canvasSize sys;
     listeners := filter (fun l => l ≠ (type, fn)) (listeners sys);
     pending := pending sys;
     last_handle := last_handle sys; window_inner := window_inner sys;
     drawn := drawn sys |}.

(** [requestAnimationFrame(render)]: handles are positive and increase. *)
Definition requestAnimationFrame (cb : callback) (sys : System) : nat * System :=
  let handle := S (last_handle sys) in
  (handle,
   {| refs := refs sys; canvasSize := canvasSize sys;
      listeners := listeners sys;
      pending := pending sys ++ [handle];
      last_handle := handle; window_inner := window_inner sys;
      drawn := drawn sys |}).

(** [cancelAnimationFrame(v)] *)
Definition cancelAnimationFrame (v : jsval) (sys : System) : System :=
  {| refs := refs sys; canvasSize := canvasSize sys;
     listeners := listeners sys;
     pending := filter (fun h => h ≠ ToHandle v) (pending sys);
     last_handle := last_handle sys; window_inner := window_inner sys;
     drawn := drawn sys |}.

(** The browser runs the callbacks requested for a frame: the requests
    pending when the frame starts are taken off the list and run in order;
    requests made meanwhile wait for the next frame. *)
Definition run_frame (render : System -> System) (sys : System) : System :=
  let due := pending sys in
  foldl (fun st _ => render st)
        {| refs := refs sys; canvasSize := canvasSize sys;
           listeners := listeners sys; pending := [];
           last_handle := last_handle sys; window_inner := window_inner sys;
           drawn := drawn sys |}
        due.

(** ** The component [HexGrid] *)

Section HexGrid.
Local Open Scope Q_scope.
Variable props : Props.

(** [const render = () => ...] of the effect. *)
Definition render (sys : System) : System :=
  let windowSize := window_inner sys in
  let call := {| call_size := hexSize props * zoom (refs sys);
                 call_canvas := windowSize;
                 call_offset := offset (refs sys) |} in
  let sys1 :=
    {| refs := refs sys; canvasSize := windowSize;
       listeners := listeners sys; pending := pending sys;
       last_handle := last_handle sys; window_inner := window_inner sys;
       drawn := drawn sys ++ [call] |} in
  let (handle, sys2) := requestAnimationFrame Render sys1 in
  with_refs (fun rf => {| offset := offset rf; zoom := zoom rf;
                          frameRef := handle;
                          isDragging := isDragging rf;
                          lastMousePosition := lastMousePosition rf |})
            sys2.

(** The effect of [useEffect], run when the component mounts (the canvas
    and its 2D context exist). *)
Definition effect (sys : System) : System :=
  let sys1 := addEventListener "wheel" HandleWheel sys in
  let sys2 := addEventListener "mousedown" HandleMouseDown sys1 in
  let sys3 := addEventListener "mousemove" HandleMouseMove sys2 in
  let sys4 := addEventListener "mouseup" HandleMouseUp sys3 in
  let sys5 := addEventListener "mouseleave" HandleMouseUp sys4 in
  let (handle, sys6) := requestAnimationFrame Render sys5 in
  with_refs (fun rf => {| offset := offset rf; zoom := zoom rf;
                          frameRef := handle;
                          isDragging := isDragging rf;
                          lastMousePosition := lastMousePosition rf |})
            sys6.

(** The cleanup function the effect returns. *)
Definition cleanup (sys : System) : System :=
  let sys1 := cancelAnimationFrame (JNum (frameRef (refs sys))) sys in
  let sys2 := removeEventListener "wheel" HandleWheel sys1 in
  let sys3 := removeEventListener "mousedown" HandleMouseDown sys2 in
  let sys4 := removeEventListener "mousemove" HandleMouseMove sys3 in
  let sys5 := removeEventListener "mouseup" HandleMouseUp sys4 in
  removeEventListener "mouseleave" HandleMouseUp sys5.

(** What the browser delivers to the page. *)
Inductive event : Type :=
| Wheel (deltaY : Q)
| MouseDown (clientX clientY : Q)
| MouseMove (clientX clientY : Q)
| MouseUp
| MouseLeave
| Resize (innerWidth innerHeight : Q)
| Frame.

(** Running one attached listener on an input event. *)
Definition call_listener (fn : listener) (ev : event) (rf : Refs) : Refs :=
  match fn, ev with
  | HandleWheel, Wheel deltaY => handleWheel props deltaY rf
  | HandleMouseDown, MouseDown cx cy => handleMouseDown cx cy rf
  | HandleMouseMove, MouseMove cx cy => handleMouseMove props cx cy rf
  | HandleMouseUp, (MouseUp | MouseLeave) => handleMouseUp rf
  | _, _ => rf
  end.

Definition event_type (ev : event) : string :=
  match ev with
  | Wheel _ => "wheel"
  | MouseDown _ _ => "mousedown"
  | MouseMove _ _ => "mousemove"
  | MouseUp => "mouseup"
  | MouseLeave => "mouseleave"
  | Resize _ _ => "resize"
  | Frame => "frame"
  end.

(** An input event runs the listeners attached for its type, in the
    order of attachment. *)
Definition dispatch (ev : event) (sys : System) : System :=
  foldl (fun st l => if decide (fst l = event_type ev)
                     then with_refs (call_listener (snd l) ev) st else st)
        sys (listeners sys).

(** One step of the page. *)
Definition step (sys : System) (ev : event) : System :=
  match ev with
  | Frame => run_frame render sys
  | Resize w h =>
      {| refs := refs sys; canvasSize := canvasSize sys;
         listeners := listeners sys; pending := pending sys;
         last_handle := last_handle sys; window_inner := Point.mk w h;
         drawn := drawn sys |}
  | _ => dispatch ev sys
  end.

Definition run (sys : System) (evs : list event) : System := foldl step sys evs.
End HexGrid.

(** The page before the component mounts. *)
Definition initial_system : System :=
  {| refs := initial_refs; canvasSize := Point.mk 0 0;
     listeners := []; pending := []; last_handle := 0;
     window_inner := Point.mk 0 0; drawn := [] |}.

(** The canvas operations of one recorded redraw: the call of
    [renderGrid] with the recorded arguments. *)
Definition redraw_ops (tiles : list Tile) (call : RenderCall) : list canvas_op :=
  renderGrid tiles (Q2R (call_size call))
    (mkCanvas (Q2R (Point.x (call_canvas call))) (Q2R (Point.y (call_canvas call))))
    (Pixel.mk (Q2R (Point.x (call_offset call))) (Q2R (Point.y (call_offset call)))).

(** ** The earlier draft of [HexGrid] (second source file)

    Its effect discards the handle [requestAnimationFrame] returns, and its
    cleanup passes the callback to [cancelAnimationFrame]. *)
Module Draft.
Section Draft.
Local Open Scope Q_scope.
Variable props : Props.

(** [const render = () => { renderGrid(...); requestAnimationFrame(render); }] *)
Definition render (sys : System) : System :=
  let call := {| call_size := hexSize props * zoom (refs sys);
                 call_canvas := window_inner sys;
                 call_offset := offset (refs sys) |} in
  let sys1 :=
    {| refs := refs sys; canvasSize := canvasSize sys;
       listeners := listeners sys; pending := pending sys;
       last_handle := last_handle sys; window_inner := window_inner sys;
       drawn := drawn sys ++ [call] |} in
  snd (requestAnimationFrame Render sys1).

Definition effect (sys : System) : System :=
  let sys1 := addEventListener "wheel" HandleWheel sys in
  let sys2 := addEventListener "mousedown" HandleMouseDown sys1 in
  let sys3 := addEventListener "mousemove" HandleMouseMove sys2 in
  let sys4 := addEventListener "mouseup" HandleMouseUp sys3 in
  let sys5 := addEventListener "mouseleave" HandleMouseUp sys4 in
  snd (requestAnimationFrame Render sys5).

(** [cancelAnimationFrame(render)] followed by the five removals. *)
Definition cleanup (sys : System) : System :=
  let sys1 := cancelAnimationFrame (JFun Render) sys in
  let sys2 := removeEventListener "wheel" HandleWheel sys1 in
  let sys3 := removeEventListener "mousedown" HandleMouseDown sys2 in
  let sys4 := removeEventListener "mousemove" HandleMouseMove sys3 in
  let sys5 := removeEventListener "mouseup" HandleMouseUp sys4 in
  removeEventListener "mouseleave" HandleMouseUp sys5.
End Draft.
End Draft.

(** ** Notions used to state the grid's properties *)

(** The row of column [q]: its [r] runs over the clipped interval. *)
Definition row_lo (radius q : Z) : Z := Z.max (- radius) (- q - radius).
Definition row_hi (radius q : Z) : Z := Z.min radius (- q + radius).
Definition row (radius q : Z) : list Hex :=
  createHex q <$> seqZ (row_lo radius q) (row_hi radius q - row_lo radius q + 1).

(** Sum of [f] over a list of integers. *)
Definition Zsum (f : Z -> Z) (l : list Z) : Z := foldr (fun x acc => f x + acc) 0 l.

(** Distance of a cell from the centre: [max(|q|, |r|, |s|)]. *)
Definition hex_norm (h : Hex) : Z :=
  Z.max (Z.abs (q h)) (Z.max (Z.abs (r h)) (Z.abs (s h))).

(** Every value [Math.random()] returns lies in [[0, 1)]. *)
Definition unit_draws (draws : nat -> Q) : Prop :=
  forall k : nat, (0 <= draws k /\ draws k < 1)%Q.

(** The tape of [w'] is what is left of the tape of [w] after some draws. *)
Definition tape_suffix {T : Type} (w w' : world T) : Prop :=
  exists n : nat, forall k : nat, tape w' k = tape w (n + k)%nat.

(** The test [hex.q === 0 && hex.r === 0] of [Home]. *)
Definition is_center (hex : Hex) : bool := (q hex =? 0) && (r hex =? 0).

(** The tiles of the cells other than the centre, in grid order. *)
Definition outer_tiles (tiles : list Tile) : list Tile :=
  filter (fun t => is_center (tile_hex t) = false) tiles.

(** A tile carrying a record: its name and its two statistics are the
    record's. *)
Definition carries (planet : Planet) (t : Tile) : Prop :=
  tile_name t = Some (planet_name planet) /\
  tile_resources t = Some (planet_resources planet) /\
  tile_influence t = Some (planet_influence planet).

(** A tile with nothing but its [hex]: the three other fields are
    undefined. *)
Definition bare (t : Tile) : Prop :=
  tile_name t = None /\ tile_resources t = None /\ tile_influence t = None.

(** A tile carrying the record at position [p] of the catalog. *)
Definition holds (catalog : list Planet) (t : Tile) (p : nat) : Prop :=
  exists planet, catalog !! p = Some planet /\ carries planet t.

(** The record read back from the fields of a tile, if it has all three. *)
Definition tile_record (t : Tile) : option Planet :=
  match tile_name t, tile_resources t, tile_influence t with
  | Some name, Some resources, Some influence => Some (mkPlanet name resources influence)
  | _, _, _ => None
  end.

(** Laying records out over the cells: the centre takes [mecatol], every
    other cell the next record of [dealt], and nothing once it has run out. *)
Fixpoint place (mecatol : Planet) (hexes : list Hex) (dealt : list Planet) : list Tile :=
  match hexes with
  | [] => []
  | hex :: hexes' =>
      if is_center hex then spread (Some mecatol) hex :: place mecatol hexes' dealt
      else spread (head dealt) hex :: place mecatol hexes' (tail dealt)
  end.

(** The zoom interval of the view. *)
Definition zoom_in_range (z : Q) : Prop := (0.5 <= z /\ z <= 2)%Q.

(** Per-move pointer deltas along one axis: each position minus the one
    before it, starting from the position of the press. *)
Fixpoint deltas (last : Q) (positions : list Q) : list Q :=
  match positions with
  | [] => []
  | p :: rest => (p - last)%Q :: deltas p rest
  end.

(** Sum of the deltas, each scaled by the pan speed. *)
Definition scaled_sum (speed : Q) (ds : list Q) : Q :=
  foldr (fun d acc => (d * speed + acc)%Q) 0%Q ds.

(** A run of pointer moves, in order. *)
Definition moves_from (props : Props) (rf : Refs) (moves : list Point.t) : Refs :=
  foldl (fun st p => handleMouseMove props (Point.x p) (Point.y p) st) rf moves.

(** A drag: the press, then the moves. *)
Definition drag (props : Props) (x0 y0 : Q) (moves : list Point.t) (rf : Refs) : Refs :=
  moves_from props (handleMouseDown x0 y0 rf) moves.


(** The listeners the effect attaches, in order. *)
Definition attached : list (string * listener) :=
  [("wheel"%string, HandleWheel); ("mousedown"%string, HandleMouseDown);
   ("mousemove"%string, HandleMouseMove); ("mouseup"%string, HandleMouseUp);
   ("mouseleave"%string, HandleMouseUp)].

(** While the view is mounted: exactly the five listeners are attached,
    and exactly one frame request is outstanding, the one [frameRef] holds. *)
Definition mounted (sys : System) : Prop :=
  listeners sys = attached /\ pending sys = [frameRef (refs sys)].

(** After teardown: nothing attached, nothing scheduled. *)
Definition torn_down (sys : System) : Prop :=
  listeners sys = [] /\ pending sys = [].

(** ** Notions used to state further properties *)

(** Order of the cells by column [q], then by row [r]. *)
Definition hex_lt (h1 h2 : Hex) : Prop :=
  q h1 < q h2 \/ (q h1 = q h2 /\ r h1 < r h2).

(** The context's [fillStyle] while a sequence of operations runs: every
    [fill] must find the hexagon colour, every [fillText] white. *)
Fixpoint styles_ok (fillStyle : option string) (ops : list canvas_op) : bool :=
  match ops with
  | [] => true
  | set_fillStyle style :: rest => styles_ok (Some style) rest
  | fill :: rest =>
      bool_decide (fillStyle = Some "#091d66"%string) && styles_ok fillStyle rest
  | fillText _ _ _ :: rest =>
      bool_decide (fillStyle = Some "white"%string) && styles_ok fillStyle rest
  | _ :: rest => styles_ok fillStyle rest
  end.

Definition is_lineTo (op : canvas_op) : bool :=
  match op with lineTo _ _ => true | _ => false end.

Definition is_fill (op : canvas_op) : bool :=
  match op with fill => true | _ => false end.

Definition is_stroke (op : canvas_op) : bool :=
  match op with stroke => true | _ => false end.

Definition is_fillText (op : canvas_op) : bool :=
  match op with fillText _ _ _ => true | _ => false end.

(** Number of operations of a kind. *)
Definition count_ops (kind : canvas_op -> bool) (ops : list canvas_op) : nat :=
  length (filter (fun op => kind op = true) ops).

(** Number of animation frames among the events. *)
Fixpoint frames (evs : list event) : nat :=
  match evs with
  | [] => O
  | Frame :: rest => S (frames rest)
  | _ :: rest => frames rest
  end.

(** The position of the pointer after a press at [start] and the moves. *)
Definition final_position (start : Point.t) (moves : list Point.t) : Point.t :=
  default start (last moves).

(** ** Sample inputs *)

Definition sample_mecatol : Planet := mkPlanet "Mecatol Rex" 1 6.

(** A catalog of [n] distinct records. *)
Definition sample_catalog (n : nat) : list Planet :=
  (fun i : nat => mkPlanet (pretty i) (Z.of_nat i mod 5) (Z.of_nat i mod 3)) <$> seq 0 n.

(** A tape of draws: 0, 1/7, ..., 6/7, 0, ... *)
Definition sample_tape (k : nat) : Q := (Z.of_nat (k mod 7) # 7)%Q.

(** A world holding just the catalog, at location 0. *)
Definition sample_world (n : nat) : world Planet :=
  {| store := [sample_catalog n]; tape := sample_tape |}.

Definition sample_numbers : world nat :=
  {| store := [[1; 2; 3; 4; 5]%nat]; tape := sample_tape |}.


(* ===================================================================== *)
(** * Part II: properties                                                 *)
(* ===================================================================== *)

Section Loops.
Context {St : Type}.

Lemma for_range_unfold (lo hi : Z) (body : Z -> St -> St) (st : St) :
  for_range lo hi body st =
  if lo <=? hi then for_range (lo + 1) hi body (body lo st) else st.
Proof.
  unfold for_range. destruct (Z.leb_spec lo hi) as [Hle | Hgt].
  - replace (Z.to_nat (hi - lo + 1)) with (S (Z.to_nat (hi - (lo + 1) + 1))) by lia.
    reflexivity.
  - replace (Z.to_nat (hi - lo + 1)) with O by lia. reflexivity.
Qed.

Lemma for_upto_ext (n : nat) (i : Z) (f g : Z -> St -> St) (st : St) :
  (forall x a, f x a = g x a) -> for_upto n i f st = for_upto n i g st.
Proof.
  intros Hfg. revert i st.
  induction n as [| n IH]; intros i st; simpl; [reflexivity |].
  rewrite Hfg. apply IH.
Qed.

Lemma for_range_ext (lo hi : Z) (f g : Z -> St -> St) (st : St) :
  (forall x a, f x a = g x a) -> for_range lo hi f st = for_range lo hi g st.
Proof. intros Hfg. unfold for_range. by apply for_upto_ext. Qed.
End Loops.

(** A loop whose body appends [f i] to the accumulator builds the
    concatenation of the [f i] in visiting order. *)
Lemma for_upto_push {A : Type} (f : Z -> list A) (n : nat) (i : Z) (acc : list A) :
  for_upto n i (fun x a => a ++ f x) acc = acc ++ (seqZ i (Z.of_nat n) ≫= f).
Proof.
  revert i acc. induction n as [| n IH]; intros i acc.
  - rewrite seqZ_nil by (simpl; lia). simpl. by rewrite app_nil_r.
  - cbn [for_upto]. rewrite IH, (seqZ_cons i) by lia.
    replace (Z.pred (Z.of_nat (S n))) with (Z.of_nat n) by lia.
    replace (Z.succ i) with (i + 1) by lia.
    csimpl. by rewrite <- app_assoc.
Qed.

Lemma for_range_push {A : Type} (f : Z -> list A) (lo hi : Z) (acc : list A) :
  for_range lo hi (fun x a => a ++ f x) acc = acc ++ (seqZ lo (hi - lo + 1) ≫= f).
Proof.
  unfold for_range. rewrite for_upto_push.
  destruct (Z.le_gt_cases 0 (hi - lo + 1)).
  - by rewrite Z2Nat.id.
  - by rewrite Z2Nat.nonpos, !seqZ_nil by lia.
Qed.

Lemma generateHexGrid_rows (radius : Z) :
  generateHexGrid radius = seqZ (- radius) (2 * radius + 1) ≫= row radius.
Proof.
  unfold generateHexGrid.
  transitivity (for_range (- radius) radius (fun q a => a ++ row radius q) []).
  - apply for_range_ext. intros x a.
    rewrite (for_range_push (fun r => [createHex x r])).
    (* [l ≫= λ r, [g r]] and [g <$> l] are convertible *)
    reflexivity.
  - rewrite for_range_push. simpl. f_equal. f_equal. lia.
Qed.

(** *** Counting the cells *)

Lemma Zsum_app (f : Z -> Z) (l k : list Z) : Zsum f (l ++ k) = Zsum f l + Zsum f k.
Proof. induction l as [| x l IH]; simpl; [done | rewrite IH; lia]. Qed.

Lemma Zsum_ext_in (f g : Z -> Z) (l : list Z) :
  (forall x, x ∈ l -> f x = g x) -> Zsum f l = Zsum g l.
Proof.
  induction l as [| x l IH]; intros Hfg; simpl; [done |].
  rewrite Hfg by apply list_elem_of_here.
  rewrite IH; [done |]. intros y Hy. apply Hfg. by apply list_elem_of_further.
Qed.

(** Twice the sum of an arithmetic progression. *)
Lemma Zsum_affine (c d : Z) (n : nat) (m : Z) :
  2 * Zsum (fun x => c + d * x) (seqZ m (Z.of_nat n)) =
  Z.of_nat n * (2 * c + d * (2 * m + Z.of_nat n - 1)).
Proof.
  revert m. induction n as [| n IH]; intros m.
  - rewrite seqZ_nil by (simpl; lia). simpl. lia.
  - rewrite seqZ_cons by lia.
    replace (Z.pred (Z.of_nat (S n))) with (Z.of_nat n) by lia.
    cbn [Zsum foldr]. fold (Zsum (fun x => c + d * x) (seqZ (Z.succ m) (Z.of_nat n))).
    rewrite Z.mul_add_distr_l, IH. nia.
Qed.

Lemma length_bind_Zsum {A : Type} (f : Z -> list A) (l : list Z) :
  Z.of_nat (length (l ≫= f)) = Zsum (fun x => Z.of_nat (length (f x))) l.
Proof.
  induction l as [| x l IH]; csimpl; [done |].
  rewrite length_app, Nat2Z.inj_add, IH. done.
Qed.

Lemma length_row (radius q : Z) :
  0 <= radius -> - radius <= q <= radius ->
  Z.of_nat (length (row radius q)) =
  if q <? 0 then (2 * radius + 1) + 1 * q else (2 * radius + 1) + (-1) * q.
Proof.
  intros Hr Hq. unfold row, row_lo, row_hi.
  rewrite length_fmap, length_seqZ.
  destruct (Z.ltb_spec q 0); lia.
Qed.

Lemma length_generateHexGrid (radius : Z) :
  0 <= radius ->
  Z.of_nat (length (generateHexGrid radius)) = 3 * radius * radius + 3 * radius + 1.
Proof.
  intros Hr. rewrite generateHexGrid_rows, length_bind_Zsum.
  replace (2 * radius + 1) with (radius + (radius + 1)) by lia.
  rewrite seqZ_app by lia. replace (- radius + radius) with 0 by lia.
  rewrite Zsum_app.
  rewrite (Zsum_ext_in _ (fun x => (2 * radius + 1) + 1 * x) (seqZ (- radius) radius)).
  2:{ intros x [Hx1 Hx2]%elem_of_seqZ. rewrite length_row by lia.
      destruct (Z.ltb_spec x 0); lia. }
  rewrite (Zsum_ext_in _ (fun x => (2 * radius + 1) + (-1) * x) (seqZ 0 (radius + 1))).
  2:{ intros x [Hx1 Hx2]%elem_of_seqZ. rewrite length_row by lia.
      destruct (Z.ltb_spec x 0); lia. }
  pose proof (Zsum_affine (2 * radius + 1) 1 (Z.to_nat radius) (- radius)) as Hneg.
  pose proof (Zsum_affine (2 * radius + 1) (-1) (Z.to_nat (radius + 1)) 0) as Hpos.
  rewrite !Z2Nat.id in Hneg, Hpos by lia.
  nia.
Qed.

(** *** Membership and distinctness *)

Lemma elem_of_row (radius q : Z) (h : Hex) :
  h ∈ row radius q <->
  exists r, h = createHex q r /\ row_lo radius q <= r <= row_hi radius q.
Proof.
  unfold row. rewrite list_elem_of_fmap. split.
  - intros (x & -> & Hx%elem_of_seqZ). exists x. split; [done | lia].
  - intros (x & -> & Hx). exists x. split; [done |]. apply elem_of_seqZ. lia.
Qed.

Lemma elem_of_generateHexGrid (radius : Z) (h : Hex) :
  h ∈ generateHexGrid radius <->
  exists q r, h = createHex q r /\ - radius <= q <= radius /\
              row_lo radius q <= r <= row_hi radius q.
Proof.
  rewrite generateHexGrid_rows, list_elem_of_bind. split.
  - intros (x & (y & -> & Hy)%elem_of_row & Hx%elem_of_seqZ).
    exists x, y. repeat split; lia.
  - intros (x & y & -> & Hx & Hy). exists x. split.
    + apply elem_of_row. by exists y.
    + apply elem_of_seqZ. lia.
Qed.

Lemma NoDup_generateHexGrid (radius : Z) : NoDup (generateHexGrid radius).
Proof.
  rewrite generateHexGrid_rows. apply NoDup_bind.
  - intros x1 x2 h _ _ (y1 & -> & _)%elem_of_row (y2 & Heq & _)%elem_of_row.
    by inversion Heq.
  - intros x _. unfold row. apply NoDup_fmap_2; [| apply NoDup_seqZ].
    intros y1 y2 Heq. by inversion Heq.
  - apply NoDup_seqZ.
Qed.

(** The generator enumerates exactly the cells at distance at most
    [radius] from the centre. *)
Lemma generateHexGrid_complete (radius : Z) (h : Hex) :
  h ∈ generateHexGrid radius <->
  s h = - q h - r h /\ hex_norm h <= radius.
Proof.
  rewrite elem_of_generateHexGrid. unfold hex_norm, row_lo, row_hi. split.
  - intros (x & y & -> & Hx & Hy). simpl. lia.
  - intros [Hs Hn]. exists (q h), (r h). destruct h as [hq hr hs]. simpl in *.
    subst hs. unfold createHex. split; [done | lia].
Qed.

(** C1. For every non-negative integer radius, [generateHexGrid radius]
    returns exactly [3 radius^2 + 3 radius + 1] coordinates, pairwise
    distinct, each with [q + r + s = 0] and [max(|q|,|r|,|s|) <= radius]. *)
Theorem generateHexGrid_spec (radius : Z) :
  0 <= radius ->
  Z.of_nat (length (generateHexGrid radius)) = 3 * radius ^ 2 + 3 * radius + 1 /\
  NoDup (generateHexGrid radius) /\
  forall h, h ∈ generateHexGrid radius ->
            q h + r h + s h = 0 /\
            Z.max (Z.abs (q h)) (Z.max (Z.abs (r h)) (Z.abs (s h))) <= radius.
Proof.
  intros Hr. split; [| split].
  - rewrite length_generateHexGrid by done. lia.
  - apply NoDup_generateHexGrid.
  - intros h [Hs Hn]%generateHexGrid_complete. split; [lia | exact Hn].
Qed.

Lemma generateHexGrid_spec_witness :
  0 <= 3 /\
  Z.of_nat (length (generateHexGrid 3)) = 37 /\
  NoDup (generateHexGrid 3).
Proof.
  split; [lia |].
  destruct (generateHexGrid_spec 3 ltac:(lia)) as (Hlen & Hnd & _).
  split; [exact Hlen | exact Hnd].
Defined.

(** C7. A negative radius is not rejected: the outer loop of the generator
    starts above its bound, no cell is pushed, and the result is the empty
    grid. *)
Theorem generateHexGrid_negative (radius : Z) :
  radius < 0 -> generateHexGrid radius = [].
Proof.
  intros Hneg. rewrite generateHexGrid_rows. by rewrite seqZ_nil by lia.
Qed.

Lemma generateHexGrid_negative_witness :
  -1 < 0 /\ generateHexGrid (-1) = [].
Proof. split; [lia | apply generateHexGrid_negative; lia]. Defined.

Lemma generateHexGrid_minus_one_empty : generateHexGrid (-1) = [].
Proof. reflexivity. Qed.

(** ** Coordinate projection *)

(** C8. [hexToPixel] computes [x = size * 1.5 * q] and
    [y = size * sqrt 3 * (r + q / 2)], and the cell [(0, 0)] is projected
    to the pixel offset [(0, 0)] for every size. *)
Theorem hexToPixel_formula (hex : Hex) (size : R) :
  (Pixel.x (hexToPixel hex size) = size * 1.5 * IZR (q hex) /\
   Pixel.y (hexToPixel hex size) = size * sqrt 3 * (IZR (r hex) + IZR (q hex) / 2) /\
   hexToPixel (createHex 0 0) size = Pixel.mk 0 0)%R.
Proof.
  unfold hexToPixel. cbn [Pixel.x Pixel.y createHex q r]. split; [| split].
  - replace 1.5%R with (3 / 2)%R by lra. reflexivity.
  - reflexivity.
  - f_equal; [ring | field].
Qed.

(** ** Renderer *)

Lemma foldl_app_bind {A B : Type} (f : A -> list B) (l : list A) (acc : list B) :
  foldl (fun ctx a => ctx ++ f a) acc l = acc ++ (l ≫= f).
Proof.
  revert acc. induction l as [| a l IH]; intros acc; csimpl.
  - by rewrite app_nil_r.
  - by rewrite IH, <- app_assoc.
Qed.

Lemma renderGrid_ops (tiles : list Tile) (size : R) (canvas : Canvas) (offset : Pixel.t) :
  renderGrid tiles size canvas offset =
  clearRect 0 0 (width canvas) (height canvas) :: (tiles ≫= renderTile size canvas offset).
Proof. unfold renderGrid. by rewrite foldl_app_bind. Qed.





(** ** Interaction controller: zoom *)

Lemma handleWheel_in_range (props : Props) (deltaY : Q) (rf : Refs) :
  zoom_in_range (zoom (handleWheel props deltaY rf)).
Proof.
  unfold zoom_in_range, handleWheel. cbn [zoom]. split.
  - apply Q.min_glb; [apply Q.le_max_r | done].
  - apply Q.le_min_r.
Qed.

Lemma call_listener_in_range (props : Props) (fn : listener) (ev : event) (rf : Refs) :
  zoom_in_range (zoom rf) -> zoom_in_range (zoom (call_listener props fn ev rf)).
Proof.
  intros Hz. destruct fn, ev; cbn [call_listener]; try exact Hz.
  - apply handleWheel_in_range.
  - unfold handleMouseMove. by destruct (negb (isDragging rf)).
Qed.

Lemma dispatch_in_range (props : Props) (ev : event) (sys : System) :
  zoom_in_range (zoom (refs sys)) ->
  zoom_in_range (zoom (refs (dispatch props ev sys))).
Proof.
  unfold dispatch. generalize (listeners sys) as ls. intros ls. revert sys.
  induction ls as [| l ls IH]; intros sys Hz; cbn [foldl]; [exact Hz |].
  apply IH. destruct (decide (l.1 = event_type ev)); [| exact Hz].
  cbn [with_refs refs]. by apply call_listener_in_range.
Qed.

Lemma render_refs (props : Props) (sys : System) :
  zoom (refs (render props sys)) = zoom (refs sys) /\
  offset (refs (render props sys)) = offset (refs sys) /\
  isDragging (refs (render props sys)) = isDragging (refs sys) /\
  lastMousePosition (refs (render props sys)) = lastMousePosition (refs sys).
Proof. done. Qed.

Lemma run_frame_zoom (props : Props) (sys : System) :
  zoom (refs (run_frame (render props) sys)) = zoom (refs sys).
Proof.
  unfold run_frame.
  set (start := {| refs := refs sys; canvasSize := canvasSize sys;
                   listeners := listeners sys; pending := [];
                   last_handle := last_handle sys;
                   window_inner := window_inner sys; drawn := drawn sys |}).
  change (zoom (refs sys)) with (zoom (refs start)).
  generalize (pending sys) as due. generalize start as st. clear start.
  intros st due. revert st.
  induction due as [| h due IH]; intros st; cbn [foldl]; [done |].
  rewrite IH. apply render_refs.
Qed.

Lemma step_in_range (props : Props) (sys : System) (ev : event) :
  zoom_in_range (zoom (refs sys)) ->
  zoom_in_range (zoom (refs (step props sys ev))).
Proof.
  intros Hz. destruct ev; cbn [step]; try (by apply dispatch_in_range).
  - exact Hz.
  - by rewrite run_frame_zoom.
Qed.

Lemma run_in_range (props : Props) (evs : list event) (sys : System) :
  zoom_in_range (zoom (refs sys)) ->
  zoom_in_range (zoom (refs (run props sys evs))).
Proof.
  unfold run. revert sys.
  induction evs as [| ev evs IH]; intros sys Hz; cbn [foldl]; [exact Hz |].
  by apply IH, step_in_range.
Qed.

(** C4. From the initial zoom factor 1 and with the default zoom speed,
    the zoom factor is in [[0.5, 2]] after any finite sequence of events
    delivered to the mounted view (wheel events in any direction and
    number, mixed with any other input), and a single wheel event leaves
    it in that interval whatever it was before. *)
Theorem zoom_clamped :
  (forall evs : list event,
     zoom_in_range
       (zoom (refs (run default_props (effect initial_system) evs)))) /\
  (forall (deltas : list Q),
     zoom_in_range
       (zoom (foldl (fun rf deltaY => handleWheel default_props deltaY rf)
                    initial_refs deltas))) /\
  (forall (deltaY : Q) (rf : Refs),
     zoom_in_range (zoom (handleWheel default_props deltaY rf))).
Proof.
  split; [| split].
  - intros evs. apply run_in_range. by vm_compute.
  - intros ds. assert (Hinit : zoom_in_range (zoom initial_refs)) by by vm_compute.
    revert Hinit. generalize initial_refs as rf. intros rf. revert rf.
    induction ds as [| d ds IH]; intros rf Hz; cbn [foldl]; [exact Hz |].
    apply IH, handleWheel_in_range.
  - intros deltaY rf. apply handleWheel_in_range.
Qed.

(** ** Interaction controller: pan *)

Section Pan.
Local Open Scope Q_scope.
Variable props : Props.

Lemma moves_from_dragging (moves : list Point.t) (rf : Refs) :
  isDragging rf = true ->
  Point.x (offset (moves_from props rf moves)) ==
    Point.x (offset rf)
    + scaled_sum (panSpeed props)
        (deltas (Point.x (lastMousePosition rf)) (Point.x <$> moves)) /\
  Point.y (offset (moves_from props rf moves)) ==
    Point.y (offset rf)
    + scaled_sum (panSpeed props)
        (deltas (Point.y (lastMousePosition rf)) (Point.y <$> moves)).
Proof.
  revert rf. induction moves as [| p moves IH]; intros rf Hdrag.
  - cbn. split; ring.
  - cbn [moves_from foldl fmap list_fmap deltas scaled_sum foldr].
    fold (moves_from props (handleMouseMove props (Point.x p) (Point.y p) rf) moves).
    fold (scaled_sum (panSpeed props)
            (deltas (Point.x p) (Point.x <$> moves))).
    fold (scaled_sum (panSpeed props)
            (deltas (Point.y p) (Point.y <$> moves))).
    assert (Hmove : handleMouseMove props (Point.x p) (Point.y p) rf =
              {| offset :=
                   Point.mk
                     (Point.x (offset rf)
                      + (Point.x p - Point.x (lastMousePosition rf)) * panSpeed props)
                     (Point.y (offset rf)
                      + (Point.y p - Point.y (lastMousePosition rf)) * panSpeed props);
                 zoom := zoom rf; frameRef := frameRef rf;
                 isDragging := isDragging rf;
                 lastMousePosition := Point.mk (Point.x p) (Point.y p) |}).
    { unfold handleMouseMove. by rewrite Hdrag. }
    destruct (IH (handleMouseMove props (Point.x p) (Point.y p) rf)) as [Hx Hy].
    { rewrite Hmove. exact Hdrag. }
    rewrite Hx, Hy, Hmove. cbn [offset lastMousePosition Point.x Point.y].
    split; ring.
Qed.

Lemma moves_from_idle (moves : list Point.t) (rf : Refs) :
  isDragging rf = false -> moves_from props rf moves = rf.
Proof.
  intros Hidle. induction moves as [| p moves IH]; [done |].
  cbn [moves_from foldl]. unfold handleMouseMove at 2. rewrite Hidle. exact IH.
Qed.
End Pan.

(** C5. A press at [(x0, y0)] followed by pointer moves changes the pan
    offset by the sum of the per-move deltas, each scaled by the pan speed;
    a release followed by a new press leaves the offset as it is and makes
    the new press position the baseline of the next delta. *)
Theorem pan_offset_drag (props : Props) (rf : Refs) (x0 y0 : Q) (moves : list Point.t) :
  let rf' := drag props x0 y0 moves rf in
  (Point.x (offset rf') ==
     Point.x (offset rf) + scaled_sum (panSpeed props) (deltas x0 (Point.x <$> moves)) /\
   Point.y (offset rf') ==
     Point.y (offset rf) + scaled_sum (panSpeed props) (deltas y0 (Point.y <$> moves)))%Q /\
  forall x1 y1 : Q,
    let rf'' := handleMouseDown x1 y1 (handleMouseUp rf') in
    offset rf'' = offset rf' /\
    lastMousePosition rf'' = Point.mk x1 y1 /\
    isDragging rf'' = true /\
    forall x2 y2 : Q,
      (Point.x (offset (handleMouseMove props x2 y2 rf'')) ==
         Point.x (offset rf') + (x2 - x1) * panSpeed props /\
       Point.y (offset (handleMouseMove props x2 y2 rf'')) ==
         Point.y (offset rf') + (y2 - y1) * panSpeed props)%Q.
Proof.
  intros rf'. split.
  - subst rf'. unfold drag.
    exact (moves_from_dragging props moves (handleMouseDown x0 y0 rf) eq_refl).
  - intros x1 y1 rf''. repeat split; reflexivity.
Qed.

(** ** Shuffle *)

Lemma floor_scaled_0 (x : Q) : floor_scaled x 0 = O.
Proof.
  unfold floor_scaled. cbn [Z.of_nat inject_Z Qmult Qnum Qden Qfloor].
  by rewrite Z.mul_0_r, Zdiv_0_l.
Qed.

(** [Math.floor(Math.random() * n)] is an index below [n]. *)
Lemma floor_scaled_lt (x : Q) (n : nat) :
  (0 <= x /\ x < 1)%Q -> (0 < n)%nat -> (floor_scaled x n < n)%nat.
Proof.
  intros [Hx0 Hx1] Hn. unfold floor_scaled.
  set (y := (x * inject_Z (Z.of_nat n))%Q).
  assert (Hn' : (0 < inject_Z (Z.of_nat n))%Q).
  { change 0%Q with (inject_Z 0). rewrite <- Zlt_Qlt. lia. }
  assert (Hy0 : (0 <= y)%Q) by (apply Qmult_le_0_compat; [done | by apply Qlt_le_weak]).
  assert (Hy1 : (y < inject_Z (Z.of_nat n))%Q).
  { subst y. rewrite <- (Qmult_1_l (inject_Z (Z.of_nat n))) at 2.
    by apply Qmult_lt_compat_r. }
  assert (H0 : 0 <= Qfloor y).
  { change 0 with (Qfloor 0). by apply Qfloor_resp_le. }
  assert (H1 : Qfloor y < Z.of_nat n).
  { rewrite Zlt_Qlt. eapply Qle_lt_trans; [apply Qfloor_le | exact Hy1]. }
  lia.
Qed.

Lemma tape_suffix_refl {T : Type} (w : world T) : tape_suffix w w.
Proof. by exists O. Qed.

Lemma tape_suffix_trans {T : Type} (w1 w2 w3 : world T) :
  tape_suffix w1 w2 -> tape_suffix w2 w3 -> tape_suffix w1 w3.
Proof.
  intros [n Hn] [m Hm]. exists (n + m)%nat. intros k.
  rewrite Hm, Hn. f_equal. lia.
Qed.

Lemma tape_suffix_unit_draws {T : Type} (w w' : world T) :
  tape_suffix w w' -> unit_draws (tape w) -> unit_draws (tape w').
Proof. intros [n Hn] Hu k. rewrite Hn. apply Hu. Qed.

Lemma Math_random_suffix {T : Type} (w : world T) :
  tape_suffix w (Math_random w).2 /\ store (Math_random w).2 = store w.
Proof. split; [by exists 1%nat | done]. Qed.

(** Exchanging two cells of an array permutes it. *)
Lemma exchange_Permutation {T : Type} (a : list T) (i j : nat) (ai aj : T) :
  a !! i = Some ai -> a !! j = Some aj ->
  <[j := ai]> (<[i := aj]> a) ≡ₚ a.
Proof.
  intros Hi Hj.
  assert (Hli : (i < length a)%nat) by by eapply lookup_lt_Some.
  assert (Hlj : (j < length a)%nat) by by eapply lookup_lt_Some.
  apply Permutation_inj. split; [by rewrite !length_insert |].
  exists (fun k => if decide (k = i) then j else if decide (k = j) then i else k).
  split.
  - intros k1 k2. repeat case_decide; congruence.
  - intros k. rewrite !list_lookup_insert, !length_insert.
    repeat case_decide; intuition (subst; first [congruence | lia]).
Qed.

Section ShuffleFacts.
Context {T : Type}.
Implicit Types (w : world T) (a b : list T).

Lemma read_spec (l : loc) w a : store w !! l = Some a -> read l w = (a, w).
Proof. intros Hl. unfold read. by rewrite Hl. Qed.

Lemma swap_spec (copy : loc) (i j : nat) w a :
  store w !! copy = Some a ->
  exists b, swap copy i j w = (tt, {| store := <[copy := b]> (store w); tape := tape w |})
            /\ b ≡ₚ a.
Proof.
  intros Hcopy. unfold swap, mbind, M_bind, bind. rewrite (read_spec copy w a Hcopy).
  destruct (a !! j) as [aj |] eqn:Hj; [destruct (a !! i) as [ai |] eqn:Hi |].
  - eexists. split; [reflexivity |]. by eapply exchange_Permutation.
  - exists a. split; [| done]. unfold mret, M_ret, ret.
    rewrite list_insert_id by done. by destruct w.
  - exists a. split; [| done]. unfold mret, M_ret, ret.
    rewrite list_insert_id by done. by destruct w.
Qed.

(** With both indices in range the exchange takes place; in [shuffle]
    they are: [i] is below the length and [j], an index drawn below
    [i + 1] (lemma [floor_scaled_lt]), is at most [i]. *)
Lemma swap_in_range (copy : loc) (i j : nat) w a (ai aj : T) :
  store w !! copy = Some a ->
  a !! i = Some ai ->
  a !! j = Some aj ->
  swap copy i j w =
  (tt, {| store := <[copy := <[j := ai]> (<[i := aj]> a)]> (store w); tape := tape w |}).
Proof.
  intros Hcopy Hi Hj. unfold swap, mbind, M_bind, bind.
  by rewrite (read_spec copy w a Hcopy), Hi, Hj.
Qed.

Lemma shuffle_loop_spec (copy : loc) (i : nat) w a :
  store w !! copy = Some a ->
  exists b w', shuffle_loop copy i w = (tt, w')
               /\ store w' = <[copy := b]> (store w)
               /\ b ≡ₚ a
               /\ tape_suffix w w'.
Proof.
  revert w a. induction i as [| i IH]; intros w a Hcopy.
  - exists a, w. split; [done |]. split; [by rewrite list_insert_id |].
    split; [done | apply tape_suffix_refl].
  - cbn [shuffle_loop]. unfold mbind, M_bind, bind.
    destruct (Math_random w) as [x w1] eqn:Hrand.
    pose proof (Math_random_suffix w) as [Hsuf Hstore]. rewrite Hrand in Hsuf, Hstore.
    cbn [snd] in Hsuf, Hstore.
    destruct (swap_spec copy (S i) (floor_scaled x (S i + 1)) w1 a) as (b1 & Hswap & Hperm1).
    { by rewrite Hstore. }
    rewrite Hswap.
    set (w2 := {| store := <[copy := b1]> (store w1); tape := tape w1 |}).
    assert (Hlt : (copy < length (store w1))%nat).
    { rewrite Hstore. by eapply lookup_lt_Some. }
    destruct (IH w2 b1) as (b & w' & Hloop & Hst & Hperm & Hsuf2).
    { subst w2. cbn [store]. by rewrite list_lookup_insert_eq. }
    exists b, w'. split; [exact Hloop |]. split; [| split].
    + rewrite Hst. subst w2. cbn [store]. by rewrite list_insert_insert_eq, Hstore.
    + by rewrite Hperm.
    + eapply tape_suffix_trans; [exact Hsuf |].
      eapply tape_suffix_trans; [| exact Hsuf2]. by exists O.
Qed.

Lemma shuffle_spec (array : loc) w a :
  store w !! array = Some a ->
  exists b w', shuffle array w = (length (store w), w')
               /\ store w' = store w ++ [b]
               /\ b ≡ₚ a
               /\ tape_suffix w w'.
Proof.
  intros Harr. unfold shuffle, mbind, M_bind, bind. rewrite (read_spec array w a Harr).
  unfold alloc.
  set (w1 := {| store := store w ++ [a]; tape := tape w |}).
  destruct (shuffle_loop_spec (length (store w)) (length a - 1) w1 a)
    as (b & w' & Hloop & Hst & Hperm & Hsuf).
  { subst w1. cbn [store]. by rewrite list_lookup_middle. }
  rewrite Hloop. exists b, w'. split; [done |]. split; [| split; [done |]].
  - rewrite Hst. subst w1. cbn [store].
    replace (length (store w)) with (length (store w) + 0)%nat at 1 by lia.
    by rewrite insert_app_r.
  - destruct Hsuf as [n Hn]. by exists n.
Qed.
End ShuffleFacts.

(** C9. [shuffle] returns a new array, a permutation of its argument
    (same length, same elements with their multiplicities), and leaves the
    argument and every other array as it was. *)
Theorem shuffle_permutation {T : Type} (w : world T) (array : loc) (a : list T) :
  store w !! array = Some a ->
  let copy := (shuffle array w).1 in
  let w' := (shuffle array w).2 in
  copy ≠ array /\
  store w !! copy = None /\
  (exists b, store w' !! copy = Some b /\ b ≡ₚ a /\ length b = length a) /\
  store w' !! array = Some a /\
  forall l : loc, l ≠ copy -> store w' !! l = store w !! l.
Proof.
  intros Harr copy w'.
  destruct (shuffle_spec array w a Harr) as (b & w1 & Hsh & Hst & Hperm & _).
  subst copy w'. rewrite Hsh. cbn [fst snd].
  assert (Hlt : (array < length (store w))%nat) by by eapply lookup_lt_Some.
  split; [lia |]. split; [by apply lookup_ge_None_2 |]. split; [| split].
  - exists b. rewrite Hst, list_lookup_middle by done.
    split; [done |]. split; [done | by apply Permutation_length].
  - rewrite Hst. by rewrite lookup_app_l.
  - intros l Hl. rewrite Hst.
    destruct (decide (l < length (store w))%nat).
    + by rewrite lookup_app_l.
    + rewrite !lookup_ge_None_2; [done | lia |]. rewrite length_app. simpl. lia.
Qed.

(** ** Board setup *)

Section Deal.
Variable mecatol : Planet.
Variable deck : loc.
Implicit Types (w : world Planet) (d : list Planet).

Lemma splice1_spec (start : nat) w d :
  store w !! deck = Some d ->
  splice1 deck start w =
  (d !! start,
   {| store := <[deck := delete start d]> (store w) ++ [take 1 (drop start d)];
      tape := tape w |}).
Proof.
  intros Hd. unfold splice1, splice, mbind, M_bind, bind.
  rewrite (read_spec deck w d Hd). unfold write, alloc, read. cbn [store tape].
  rewrite list_lookup_middle by done. unfold mret, M_ret, ret. f_equal.
  change (default [] (Some (take 1 (drop start d)))) with (take 1 (drop start d)).
  rewrite lookup_take_lt by lia. rewrite lookup_drop. f_equal. lia.
Qed.

Lemma assign_tile_center (hex : Hex) w :
  is_center hex = true -> assign_tile mecatol deck hex w = (spread (Some mecatol) hex, w).
Proof. intros Hc. unfold assign_tile. unfold is_center in Hc. by rewrite Hc. Qed.

Lemma assign_tile_outer (hex : Hex) w d :
  is_center hex = false ->
  store w !! deck = Some d ->
  unit_draws (tape w) ->
  exists k w', assign_tile mecatol deck hex w = (spread (d !! k) hex, w')
               /\ store w' = <[deck := delete k d]> (store w) ++ [take 1 (drop k d)]
               /\ (d ≠ [] -> (k < length d)%nat)
               /\ tape_suffix w w'.
Proof.
  intros Hc Hd Hu. unfold assign_tile. unfold is_center in Hc. rewrite Hc.
  unfold mbind, M_bind, bind.
  destruct (Math_random w) as [x w1] eqn:Hrand.
  assert (Hx : x = tape w O /\ store w1 = store w /\ tape w1 = fun k => tape w (S k)).
  { unfold Math_random in Hrand. by inversion Hrand. }
  destruct Hx as (-> & Hst1 & Htape1).
  rewrite (read_spec deck w1 d) by by rewrite Hst1.
  rewrite (splice1_spec _ w1 d) by by rewrite Hst1.
  eexists _, _. split; [reflexivity |]. cbn [store tape]. split; [by rewrite Hst1 |].
  split.
  - intros Hne. apply floor_scaled_lt; [apply Hu |].
    destruct d; [done | simpl; lia].
  - exists 1%nat. intros k. by rewrite Htape1.
Qed.

(** The loop of [hexes.map] deals records off the deck without
    replacement: what was dealt and what is left make up the deck.  The
    arrays [splice] returns are allocated after the existing ones. *)
Lemma deal_spec (hexes : list Hex) w d :
  store w !! deck = Some d ->
  unit_draws (tape w) ->
  exists dealt rest removed w',
    mapM (assign_tile mecatol deck) hexes w = (place mecatol hexes dealt, w')
    /\ store w' = <[deck := rest]> (store w) ++ removed
    /\ dealt ++ rest ≡ₚ d
    /\ length dealt =
       Nat.min (length d) (length (filter (fun h => is_center h = false) hexes))
    /\ tape_suffix w w'.
Proof.
  revert w d. induction hexes as [| hex hexes IH]; intros w d Hd Hu.
  - exists [], d, [], w. cbn [mapM place]. split; [done |].
    split; [by rewrite list_insert_id, app_nil_r |]. split; [done |].
    split; [simpl; lia | apply tape_suffix_refl].
  - cbn [mapM place]. unfold mbind at 1 2, M_bind at 1 2, bind at 1 2.
    destruct (is_center hex) eqn:Hc.
    + rewrite assign_tile_center by done.
      destruct (IH w d Hd Hu)
        as (dealt & rest & removed & w' & Hmap & Hst & Hperm & Hlen & Hsuf).
      rewrite Hmap. exists dealt, rest, removed, w'. split; [done |].
      rewrite filter_cons_False by by rewrite Hc. done.
    + destruct (assign_tile_outer hex w d Hc Hd Hu) as (k & w1 & Has & Hst1 & Hk & Hsuf1).
      rewrite Has.
      assert (Hlt : (deck < length (store w))%nat) by by eapply lookup_lt_Some.
      destruct (IH w1 (delete k d))
        as (dealt & rest & removed & w' & Hmap & Hst & Hperm & Hlen & Hsuf).
      { rewrite Hst1, lookup_app_l by by rewrite length_insert.
        by rewrite list_lookup_insert_eq. }
      { by eapply tape_suffix_unit_draws. }
      rewrite Hmap. rewrite filter_cons_True by done. cbn [length].
      assert (Hst' : store w' =
                <[deck := rest]> (store w) ++ ([take 1 (drop k d)] ++ removed)).
      { rewrite Hst, Hst1, insert_app_l by by rewrite length_insert.
        by rewrite list_insert_insert_eq, <- app_assoc. }
      assert (Hsuf' : tape_suffix w w') by by eapply tape_suffix_trans.
      destruct (d !! k) as [p |] eqn:Hp.
      * exists (p :: dealt), rest, ([take 1 (drop k d)] ++ removed), w'.
        cbn [head tail]. split; [done |].
        split; [done |]. split; [| split; [| done]].
        -- cbn [app]. rewrite Hperm. symmetry. by apply delete_Permutation.
        -- cbn [length]. rewrite Hlen, length_delete by done.
           apply lookup_lt_Some in Hp. lia.
      * assert (Hdnil : d = []).
        { destruct d as [| p d']; [done |].
          apply lookup_ge_None_1 in Hp. pose proof (Hk ltac:(done)). lia. }
        subst d. destruct dealt as [| p dealt]; [| simpl in Hlen; lia].
        exists [], rest, ([take 1 (drop k [])] ++ removed), w'.
        cbn [head tail]. split; [done |].
        split; [done |]. split; [| split; [done | done]].
        by destruct k.
Qed.
End Deal.

Lemma Home_spec (planets : loc) (mecatol : Planet) (w : world Planet)
    (catalog : list Planet) :
  store w !! planets = Some catalog ->
  unit_draws (tape w) ->
  exists dealt rest removed w',
    Home planets mecatol w = (place mecatol (generateHexGrid 3) dealt, w')
    /\ store w' = store w ++ [rest] ++ removed
    /\ dealt ++ rest ≡ₚ catalog
    /\ length dealt = Nat.min (length catalog) 36.
Proof.
  intros Hcat Hu. unfold Home. unfold mbind at 1, M_bind at 1, bind at 1.
  destruct (shuffle_spec planets w catalog Hcat) as (b & w1 & Hsh & Hst1 & Hperm1 & Hsuf1).
  rewrite Hsh.
  destruct (deal_spec mecatol (length (store w)) (generateHexGrid 3) w1 b)
    as (dealt & rest & removed & w' & Hmap & Hst & Hperm & Hlen & _).
  { by rewrite Hst1, list_lookup_middle. }
  { by eapply tape_suffix_unit_draws. }
  exists dealt, rest, removed, w'. split; [exact Hmap |]. split; [| split].
  - rewrite Hst, Hst1.
    replace (length (store w)) with (length (store w) + 0)%nat at 1 by lia.
    by rewrite insert_app_r, <- app_assoc.
  - by rewrite Hperm.
  - rewrite Hlen. by rewrite (Permutation_length Hperm1).
Qed.

(** *** The layout [place] *)

Lemma tile_hex_spread (planet : option Planet) (hex : Hex) :
  tile_hex (spread planet hex) = hex.
Proof. by destruct planet. Qed.

(** What the spread copies: all three fields of a record, nothing of
    [undefined]. *)
Lemma carries_spread (planet : Planet) (hex : Hex) :
  carries planet (spread (Some planet) hex).
Proof. by repeat split. Qed.

Lemma bare_spread (hex : Hex) : bare (spread None hex).
Proof. by repeat split. Qed.

Lemma place_hexes (mecatol : Planet) (hexes : list Hex) (dealt : list Planet) :
  tile_hex <$> place mecatol hexes dealt = hexes.
Proof.
  revert dealt. induction hexes as [| hex hexes IH]; intros dealt; [done |].
  cbn [place]. destruct (is_center hex); csimpl; by rewrite ?tile_hex_spread, IH.
Qed.

Lemma place_center (mecatol : Planet) (hexes : list Hex) (dealt : list Planet) (t : Tile) :
  t ∈ place mecatol hexes dealt ->
  is_center (tile_hex t) = true ->
  t = spread (Some mecatol) (tile_hex t).
Proof.
  revert dealt. induction hexes as [| hex hexes IH]; intros dealt Hin Hc.
  - by apply not_elem_of_nil in Hin.
  - cbn [place] in Hin. destruct (is_center hex) eqn:Hhex;
      apply elem_of_cons in Hin as [-> | Hin]; eauto.
    rewrite tile_hex_spread in Hc. congruence.
Qed.

Lemma place_outer (mecatol : Planet) (hexes : list Hex) (dealt : list Planet) :
  (length dealt <= length (filter (fun h => is_center h = false) hexes))%nat ->
  let outer := outer_tiles (place mecatol hexes dealt) in
  length outer = length (filter (fun h => is_center h = false) hexes) /\
  Forall2 (fun t planet => carries planet t) (take (length dealt) outer) dealt /\
  Forall bare (drop (length dealt) outer).
Proof.
  unfold outer_tiles. revert dealt.
  induction hexes as [| hex hexes IH]; intros dealt Hlen.
  - destruct dealt; [| simpl in Hlen; lia]. cbn. by repeat constructor.
  - cbn [place]. destruct (is_center hex) eqn:Hc.
    + rewrite filter_cons_False by by rewrite tile_hex_spread, Hc.
      rewrite filter_cons_False in Hlen |- * by by rewrite Hc.
      by apply IH.
    + rewrite filter_cons_True by by rewrite tile_hex_spread.
      rewrite filter_cons_True in Hlen |- * by done.
      destruct dealt as [| planet dealt]; cbn [head tail length take drop] in *.
      * destruct (IH [] ltac:(simpl; lia)) as (Hl & _ & Hbare). cbn [length drop] in Hbare.
        split; [by rewrite Hl |]. split; [constructor |].
        constructor; [apply bare_spread | done].
      * destruct (IH dealt ltac:(lia)) as (Hl & Hdealt & Hbare).
        split; [by rewrite Hl |]. split; [| done].
        constructor; [apply carries_spread | done].
Qed.

(** Records that make up part of the catalog sit at pairwise distinct
    positions of it. *)
Lemma dealt_positions (catalog dealt rest : list Planet) :
  dealt ++ rest ≡ₚ catalog ->
  exists ps : list nat,
    NoDup ps /\ Forall2 (fun planet p => catalog !! p = Some planet) dealt ps.
Proof.
  intros (_ & f & Hinj & Hf)%Permutation_inj.
  exists (f <$> seq 0 (length dealt)). split.
  - apply (NoDup_fmap_2 f), NoDup_seq.
  - apply Forall2_same_length_lookup_2; [by rewrite length_fmap, length_seq |].
    intros i planet p Hi Hp.
    rewrite list_lookup_fmap in Hp.
    destruct (seq 0 (length dealt) !! i) as [j |] eqn:Hj; [| done].
    apply lookup_seq in Hj as [-> _]. cbn in Hp. injection Hp as <-.
    rewrite <- Hf. by apply lookup_app_l_Some.
Qed.

Lemma Forall2_holds (catalog : list Planet) (ts : list Tile) (dealt : list Planet)
    (ps : list nat) :
  Forall2 (fun t planet => carries planet t) ts dealt ->
  Forall2 (fun planet p => catalog !! p = Some planet) dealt ps ->
  Forall2 (holds catalog) ts ps.
Proof.
  intros Hts. revert ps. induction Hts as [| t planet ts dealt Ht _ IH]; intros ps Hps.
  - apply Forall2_nil_inv_l in Hps as ->. constructor.
  - apply Forall2_cons_inv_l in Hps as (p & ps' & Hp & Hps' & ->).
    constructor; [by exists planet | by apply IH].
Qed.

(** The board for a catalog of any size: the centre cell carries
    [mecatol]; the first [min (length catalog) 36] of the other cells, in
    grid order, carry the records at pairwise distinct positions of the
    catalog; the remaining cells are bare; the catalog itself is not
    modified. *)
Lemma Home_layout (planets : loc) (mecatol : Planet) (w : world Planet)
    (catalog : list Planet) :
  store w !! planets = Some catalog ->
  unit_draws (tape w) ->
  let tiles := (Home planets mecatol w).1 in
  let n := Nat.min (length catalog) 36 in
  tile_hex <$> tiles = generateHexGrid 3 /\
  {| tile_hex := createHex 0 0;
     tile_name := Some (planet_name mecatol);
     tile_resources := Some (planet_resources mecatol);
     tile_influence := Some (planet_influence mecatol) |} ∈ tiles /\
  (forall t, t ∈ tiles -> tile_hex t = createHex 0 0 -> carries mecatol t) /\
  length (outer_tiles tiles) = 36%nat /\
  (exists ps : list nat,
     NoDup ps /\ Forall2 (holds catalog) (take n (outer_tiles tiles)) ps) /\
  Forall bare (drop n (outer_tiles tiles)) /\
  store (Home planets mecatol w).2 !! planets = Some catalog.
Proof.
  intros Hcat Hu tiles n.
  destruct (Home_spec planets mecatol w catalog Hcat Hu)
    as (dealt & rest & removed & w' & HHome & Hst & Hperm & Hlen).
  subst tiles. rewrite HHome. cbn [fst snd]. fold n in Hlen.
  assert (Hcentre : forall t, t ∈ place mecatol (generateHexGrid 3) dealt ->
            tile_hex t = createHex 0 0 -> t = spread (Some mecatol) (createHex 0 0)).
  { intros t Ht Hhex. rewrite <- Hhex. apply (place_center _ _ _ _ Ht). by rewrite Hhex. }
  destruct (place_outer mecatol (generateHexGrid 3) dealt) as (Hl & Hdealt & Hbare).
  { rewrite Hlen. subst n. change (length (filter _ (generateHexGrid 3))) with 36%nat. lia. }
  rewrite Hlen in Hdealt, Hbare.
  split; [apply place_hexes |]. split; [| split].
  - assert (Hin : createHex 0 0 ∈ tile_hex <$> place mecatol (generateHexGrid 3) dealt).
    { rewrite place_hexes. apply elem_of_generateHexGrid. exists 0, 0.
      unfold row_lo, row_hi. split; [done | lia]. }
    apply list_elem_of_fmap in Hin as (t & Hhex & Ht).
    pose proof (Hcentre t Ht (eq_sym Hhex)) as Heq. by rewrite Heq in Ht.
  - intros t Ht Hhex. rewrite (Hcentre t Ht Hhex). apply carries_spread.
  - split; [exact Hl |]. split; [| split; [exact Hbare |]].
    + destruct (dealt_positions catalog dealt rest Hperm) as (ps & Hnd & Hps).
      exists ps. split; [exact Hnd |]. by eapply Forall2_holds.
    + rewrite Hst. apply lookup_app_l_Some, Hcat.
Qed.

(** C2. Whatever the draws of [Math.random], with a catalog of at least
    36 records the centre cell carries [mecatol] (its name, resources and
    influence) and the 36 other cells carry the name, resources and
    influence of the records at 36 pairwise distinct positions of the
    catalog: no record is given to two tiles. *)
Theorem Home_assignment (planets : loc) (mecatol : Planet) (w : world Planet)
    (catalog : list Planet) :
  store w !! planets = Some catalog ->
  (36 <= length catalog)%nat ->
  unit_draws (tape w) ->
  let tiles := (Home planets mecatol w).1 in
  tile_hex <$> tiles = generateHexGrid 3 /\
  {| tile_hex := createHex 0 0;
     tile_name := Some (planet_name mecatol);
     tile_resources := Some (planet_resources mecatol);
     tile_influence := Some (planet_influence mecatol) |} ∈ tiles /\
  (forall t, t ∈ tiles -> tile_hex t = createHex 0 0 ->
             tile_name t = Some (planet_name mecatol) /\
             tile_resources t = Some (planet_resources mecatol) /\
             tile_influence t = Some (planet_influence mecatol)) /\
  length (outer_tiles tiles) = 36%nat /\
  exists ps : list nat,
    NoDup ps /\
    Forall2 (fun t p =>
               exists planet, catalog !! p = Some planet /\
                 tile_name t = Some (planet_name planet) /\
                 tile_resources t = Some (planet_resources planet) /\
                 tile_influence t = Some (planet_influence planet))
            (outer_tiles tiles) ps.
Proof.
  intros Hcat Hlen Hu tiles.
  destruct (Home_layout planets mecatol w catalog Hcat Hu)
    as (Hhex & Hin & Hcentre & Hl & (ps & Hnd & Hps) & _ & _).
  fold tiles in Hhex, Hin, Hcentre, Hl, Hps.
  do 4 (split; [done |]). exists ps. split; [exact Hnd |].
  rewrite Nat.min_r in Hps by lia. by rewrite take_ge in Hps by lia.
Qed.

(** C3. A catalog with fewer than 36 records is not rejected: the board
    is still produced, its first [length catalog] cells other than the
    centre carry the name, resources and influence of the records at
    pairwise distinct positions of the catalog, and the cells after them
    have all three fields undefined. *)
Theorem Home_short_catalog (planets : loc) (mecatol : Planet) (w : world Planet)
    (catalog : list Planet) :
  store w !! planets = Some catalog ->
  (length catalog < 36)%nat ->
  unit_draws (tape w) ->
  let tiles := (Home planets mecatol w).1 in
  tile_hex <$> tiles = generateHexGrid 3 /\
  {| tile_hex := createHex 0 0;
     tile_name := Some (planet_name mecatol);
     tile_resources := Some (planet_resources mecatol);
     tile_influence := Some (planet_influence mecatol) |} ∈ tiles /\
  length (outer_tiles tiles) = 36%nat /\
  (exists ps : list nat,
     NoDup ps /\
     Forall2 (fun t p =>
                exists planet, catalog !! p = Some planet /\
                  tile_name t = Some (planet_name planet) /\
                  tile_resources t = Some (planet_resources planet) /\
                  tile_influence t = Some (planet_influence planet))
             (take (length catalog) (outer_tiles tiles)) ps) /\
  Forall (fun t => tile_name t = None /\ tile_resources t = None /\
                   tile_influence t = None)
         (drop (length catalog) (outer_tiles tiles)).
Proof.
  intros Hcat Hlen Hu tiles.
  destruct (Home_layout planets mecatol w catalog Hcat Hu)
    as (Hhex & Hin & _ & Hl & Hps & Hbare & _).
  fold tiles in Hhex, Hin, Hl, Hps, Hbare.
  rewrite Nat.min_l in Hps, Hbare by lia. done.
Qed.

Lemma sample_tape_unit : unit_draws sample_tape.
Proof.
  intros k. unfold sample_tape, Qle, Qlt. cbn [Qnum Qden].
  pose proof (Nat.mod_upper_bound k 7 ltac:(lia)). lia.
Qed.

Lemma Home_assignment_witness :
  store (sample_world 40) !! O = Some (sample_catalog 40) /\
  (36 <= length (sample_catalog 40))%nat /\
  unit_draws (tape (sample_world 40)) /\
  exists ps : list nat,
    NoDup ps /\
    Forall2 (fun t p =>
               exists planet, sample_catalog 40 !! p = Some planet /\
                 tile_name t = Some (planet_name planet) /\
                 tile_resources t = Some (planet_resources planet) /\
                 tile_influence t = Some (planet_influence planet))
            (outer_tiles (Home O sample_mecatol (sample_world 40)).1) ps.
Proof.
  assert (H1 : store (sample_world 40) !! O = Some (sample_catalog 40)) by reflexivity.
  assert (H2 : (36 <= length (sample_catalog 40))%nat) by (vm_compute; lia).
  split; [exact H1 |]. split; [exact H2 |]. split; [exact sample_tape_unit |].
  apply (Home_assignment O sample_mecatol (sample_world 40) (sample_catalog 40)
           H1 H2 sample_tape_unit).
Defined.

Lemma Home_short_catalog_witness :
  store (sample_world 3) !! O = Some (sample_catalog 3) /\
  (length (sample_catalog 3) < 36)%nat /\
  unit_draws (tape (sample_world 3)) /\
  Forall (fun t => tile_name t = None /\ tile_resources t = None /\
                   tile_influence t = None)
         (drop (length (sample_catalog 3))
               (outer_tiles (Home O sample_mecatol (sample_world 3)).1)).
Proof.
  assert (H1 : store (sample_world 3) !! O = Some (sample_catalog 3)) by reflexivity.
  assert (H2 : (length (sample_catalog 3) < 36)%nat) by (vm_compute; lia).
  split; [exact H1 |]. split; [exact H2 |]. split; [exact sample_tape_unit |].
  apply (Home_short_catalog O sample_mecatol (sample_world 3) (sample_catalog 3)
           H1 H2 sample_tape_unit).
Defined.

(** With an empty catalog [Home] completes and hands over 37 tiles: the
    centre tile with the fields of [mecatol], and 36 tiles whose name,
    resources and influence are undefined. *)
Lemma Home_empty_catalog_not_rejected :
  (Home O sample_mecatol (sample_world 0)).1 =
  (fun hex =>
     if is_center hex then
       {| tile_hex := hex; tile_name := Some "Mecatol Rex"%string;
          tile_resources := Some 1; tile_influence := Some 6 |}
     else
       {| tile_hex := hex; tile_name := None;
          tile_resources := None; tile_influence := None |})
  <$> generateHexGrid 3.
Proof. vm_compute. reflexivity. Qed.

Lemma shuffle_permutation_witness :
  store sample_numbers !! O = Some [1; 2; 3; 4; 5]%nat /\
  store (shuffle O sample_numbers).2 !! O = Some [1; 2; 3; 4; 5]%nat.
Proof.
  split; [reflexivity |].
  pose proof (shuffle_permutation sample_numbers O [1; 2; 3; 4; 5]%nat eq_refl)
    as (_ & _ & _ & Hkept & _).
  exact Hkept.
Defined.


(** ** Lifecycle of the mounted view *)

Lemma call_listener_frameRef (props : Props) (fn : listener) (ev : event) (rf : Refs) :
  frameRef (call_listener props fn ev rf) = frameRef rf.
Proof.
  destruct fn, ev; cbn [call_listener]; try reflexivity.
  unfold handleMouseMove. by destruct (negb (isDragging rf)).
Qed.

(** Input listeners only touch the refs, and among them not [frameRef]. *)
Lemma dispatch_fold (props : Props) (ev : event) (ls : list (string * listener))
    (sys : System) :
  let sys' := foldl (fun st l => if decide (l.1 = event_type ev)
                                 then with_refs (call_listener props l.2 ev) st
                                 else st) sys ls in
  listeners sys' = listeners sys /\
  pending sys' = pending sys /\
  drawn sys' = drawn sys /\
  frameRef (refs sys') = frameRef (refs sys).
Proof.
  revert sys. induction ls as [| l ls IH]; intros sys; cbn [foldl]; [done |].
  destruct (decide (l.1 = event_type ev)); [| apply IH].
  destruct (IH (with_refs (call_listener props l.2 ev) sys)) as (-> & -> & -> & ->).
  cbn [with_refs listeners pending drawn refs]. by rewrite call_listener_frameRef.
Qed.

Lemma dispatch_frame (props : Props) (ev : event) (sys : System) :
  listeners (dispatch props ev sys) = listeners sys /\
  pending (dispatch props ev sys) = pending sys /\
  drawn (dispatch props ev sys) = drawn sys /\
  frameRef (refs (dispatch props ev sys)) = frameRef (refs sys).
Proof. apply dispatch_fold. Qed.

Lemma dispatch_mounted (props : Props) (ev : event) (sys : System) :
  mounted sys -> mounted (dispatch props ev sys).
Proof.
  intros [Hl Hp]. destruct (dispatch_frame props ev sys) as (Hl' & Hp' & _ & Hf').
  split; [by rewrite Hl' | by rewrite Hp', Hf'].
Qed.

Lemma dispatch_torn_down (props : Props) (ev : event) (sys : System) :
  torn_down sys ->
  torn_down (dispatch props ev sys) /\ drawn (dispatch props ev sys) = drawn sys.
Proof.
  intros [Hl Hp]. destruct (dispatch_frame props ev sys) as (Hl' & Hp' & Hd' & _).
  split; [split |]; congruence.
Qed.

Lemma effect_mounted (sys : System) : torn_down sys -> mounted (effect sys).
Proof.
  intros [Hl Hp]. destruct sys as [rf cs ls pd lh wi dr]. cbn in Hl, Hp. subst ls pd.
  split; reflexivity.
Qed.

Lemma run_frame_mounted (props : Props) (sys : System) :
  mounted sys -> mounted (run_frame (render props) sys).
Proof.
  intros [Hl Hp]. unfold run_frame. rewrite Hp. cbn [foldl].
  split; [exact Hl | reflexivity].
Qed.

Lemma step_mounted (props : Props) (sys : System) (ev : event) :
  mounted sys -> mounted (step props sys ev).
Proof.
  intros Hm. destruct ev; cbn [step]; try (by apply dispatch_mounted).
  - exact Hm.
  - by apply run_frame_mounted.
Qed.

Lemma run_mounted (props : Props) (evs : list event) (sys : System) :
  mounted sys -> mounted (run props sys evs).
Proof.
  unfold run. revert sys.
  induction evs as [| ev evs IH]; intros sys Hm; cbn [foldl]; [exact Hm |].
  by apply IH, step_mounted.
Qed.

Lemma cleanup_torn_down (sys : System) :
  mounted sys -> torn_down (cleanup sys) /\ drawn (cleanup sys) = drawn sys.
Proof.
  intros [Hl Hp]. destruct sys as [rf cs ls pd lh wi dr]. cbn in Hl, Hp. subst ls pd.
  unfold torn_down, cleanup, removeEventListener, cancelAnimationFrame.
  cbn [listeners pending drawn refs ToHandle].
  split; [split |]; [reflexivity | | reflexivity].
  rewrite filter_cons_False by (intros Hne; by apply Hne). reflexivity.
Qed.

Lemma step_torn_down (props : Props) (sys : System) (ev : event) :
  torn_down sys ->
  torn_down (step props sys ev) /\ drawn (step props sys ev) = drawn sys.
Proof.
  intros Ht. destruct ev; cbn [step]; try (by apply dispatch_torn_down).
  - by split.
  - destruct Ht as [Hl Hp]. unfold run_frame. rewrite Hp. cbn [foldl]. by repeat split.
Qed.

Lemma run_torn_down (props : Props) (evs : list event) (sys : System) :
  torn_down sys ->
  torn_down (run props sys evs) /\ drawn (run props sys evs) = drawn sys.
Proof.
  unfold run. revert sys.
  induction evs as [| ev evs IH]; intros sys Ht; cbn [foldl]; [done |].
  destruct (step_torn_down props sys ev Ht) as [Ht' Hd'].
  destruct (IH _ Ht') as [Ht'' Hd'']. split; [exact Ht'' | congruence].
Qed.

(** X25. Teardown of [HexGrid] as it is in [src/app/page.tsx]: whatever
    happened while the view was mounted, after the cleanup no listener is
    attached and no frame request is outstanding, and no later event or
    frame produces a redraw. *)
Lemma HexGrid_teardown (props : Props) (evs later : list event) :
  torn_down (cleanup (run props (effect initial_system) evs)) /\
  drawn (run props (cleanup (run props (effect initial_system) evs)) later) =
  drawn (run props (effect initial_system) evs).
Proof.
  assert (Hm : mounted (run props (effect initial_system) evs)).
  { apply run_mounted, effect_mounted. by split. }
  destruct (cleanup_torn_down _ Hm) as [Ht Hd]. split; [exact Ht |].
  destruct (run_torn_down props later _ Ht) as [_ Hd']. congruence.
Qed.

(** C6. In the draft of [HexGrid] that passes the callback [render] to
    [cancelAnimationFrame], mounting and then tearing down the view removes
    the five listeners but leaves the frame request of the effect
    outstanding; the next frame redraws and requests another frame. *)
Theorem Draft_teardown_leaves_frame :
  listeners (Draft.cleanup (Draft.effect initial_system)) = [] /\
  pending (Draft.cleanup (Draft.effect initial_system)) = [1%nat] /\
  drawn (Draft.cleanup (Draft.effect initial_system)) = [] /\
  drawn (run_frame (Draft.render default_props)
           (Draft.cleanup (Draft.effect initial_system))) =
    [{| call_size := 75 * 1; call_canvas := Point.mk 0 0;
        call_offset := Point.mk 0 0 |}] /\
  pending (run_frame (Draft.render default_props)
             (Draft.cleanup (Draft.effect initial_system))) = [2%nat].
Proof. repeat split; reflexivity. Qed.

(** X26. The redraw loop of the draft outlives the view: after teardown every
    frame redraws once more and requests the next frame. *)
Lemma Draft_redraws_after_teardown (props : Props) (n : nat) :
  length (drawn (Nat.iter n (run_frame (Draft.render props))
                   (Draft.cleanup (Draft.effect initial_system)))) = n /\
  pending (Nat.iter n (run_frame (Draft.render props))
             (Draft.cleanup (Draft.effect initial_system))) = [S n].
Proof.
  set (sys0 := Draft.cleanup (Draft.effect initial_system)).
  assert (Hinv : length (drawn (Nat.iter n (run_frame (Draft.render props)) sys0)) = n /\
                 pending (Nat.iter n (run_frame (Draft.render props)) sys0) = [S n] /\
                 last_handle (Nat.iter n (run_frame (Draft.render props)) sys0) = S n).
  { induction n as [| n (Hd & Hp & Hh)]; [by repeat split |].
    rewrite !Nat.iter_succ. revert Hd Hp Hh.
    generalize (Nat.iter n (run_frame (Draft.render props)) sys0) as st.
    intros st Hd Hp Hh. unfold run_frame. rewrite Hp. cbn [foldl].
    unfold Draft.render, requestAnimationFrame.
    cbn [snd drawn pending last_handle]. rewrite length_app, Hd, Hh. cbn [length app].
    repeat split; lia. }
  destruct Hinv as (Hd & Hp & _). by split.
Qed.

(** ** Sample runs *)

Example generateHexGrid_1 :
  generateHexGrid 1 =
  [createHex (-1) 0; createHex (-1) 1;
   createHex 0 (-1); createHex 0 0; createHex 0 1;
   createHex 1 (-1); createHex 1 0].
Proof. reflexivity. Qed.

Example generateHexGrid_3_length : length (generateHexGrid 3) = 37%nat.
Proof. reflexivity. Qed.

Example shuffle_sample :
  store (shuffle O sample_numbers).2 = [[1; 2; 3; 4; 5]; [2; 3; 4; 5; 1]]%nat.
Proof. reflexivity. Qed.

Example Home_sample_dealt :
  tile_name <$> take 4 (Home O sample_mecatol (sample_world 3)).1 =
  [Some "1"%string; Some "2"%string; Some "0"%string; None].
Proof. vm_compute. reflexivity. Qed.

Example zoom_saturates :
  (zoom (foldl (fun rf deltaY => handleWheel default_props deltaY rf)
               initial_refs (replicate 15 (-120)%Q)) == 2)%Q.
Proof. vm_compute. reflexivity. Qed.

Example pan_sample :
  offset (drag default_props 10 10 [Point.mk 15 12; Point.mk 12 20] initial_refs) =
  Point.mk (0 + (15 - 10) * 2 + (12 - 15) * 2)%Q (0 + (12 - 10) * 2 + (20 - 12) * 2)%Q.
Proof. reflexivity. Qed.

Example mounted_run_sample :
  pending (run default_props (effect initial_system)
             [Wheel (-1)%Q; Frame; MouseDown 10 10; MouseMove 15 12; Frame]) = [3%nat].
Proof. reflexivity. Qed.

(* ===================================================================== *)
(** * Part III: further properties of the program                         *)
(* ===================================================================== *)

(** ** Grid generator *)

(** X1. [generateHexGrid radius] lists every cell within distance
    [radius] of the centre: each [(q, r)] with [max(|q|, |r|, |q + r|)] at
    most [radius] is in the result. *)
Theorem generateHexGrid_contains (radius q r : Z) :
  Z.max (Z.abs q) (Z.max (Z.abs r) (Z.abs (- q - r))) <= radius ->
  createHex q r ∈ generateHexGrid radius.
Proof.
  intros Hn. apply generateHexGrid_complete. split; [reflexivity | exact Hn].
Qed.

Lemma generateHexGrid_contains_witness :
  Z.max (Z.abs 2) (Z.max (Z.abs (-3)) (Z.abs (- 2 - -3))) <= 3 /\
  createHex 2 (-3) ∈ generateHexGrid 3.
Proof.
  assert (H : Z.max (Z.abs 2) (Z.max (Z.abs (-3)) (Z.abs (- 2 - -3))) <= 3) by (simpl; lia).
  split; [exact H | exact (generateHexGrid_contains 3 2 (-3) H)].
Defined.

Lemma filter_none {A : Type} (P : A -> Prop) `{!forall x, Decision (P x)} (l : list A) :
  (forall z, z ∈ l -> ~ P z) -> filter P l = [].
Proof.
  induction l as [| z l IH]; intros Hnone; [done |].
  rewrite filter_cons_False by (apply Hnone; by left).
  apply IH. intros w Hw. apply Hnone. by right.
Qed.

Lemma filter_unique {A : Type} (P : A -> Prop) `{!forall x, Decision (P x)}
    (l : list A) (x : A) :
  NoDup l -> x ∈ l -> P x -> (forall y, y ∈ l -> P y -> y = x) -> filter P l = [x].
Proof.
  intros Hnd. induction Hnd as [| y l Hy Hnd IH]; intros Hin Hx Huniq.
  - by apply not_elem_of_nil in Hin.
  - apply elem_of_cons in Hin as [<- | Hin].
    + rewrite filter_cons_True by done. f_equal. apply filter_none.
      intros z Hz HPz. apply Hy. rewrite <- (Huniq z); [done | by right | done].
    + rewrite filter_cons_False.
      * apply IH; [done | done |]. intros z Hz. apply Huniq. by right.
      * intros HPy. apply Hy. rewrite (Huniq y); [done | by left | done].
Qed.

(** X2. For a non-negative radius exactly one cell of the grid passes the
    centre test [hex.q === 0 && hex.r === 0] of [Home], the cell [(0, 0)]. *)
Theorem generateHexGrid_one_center (radius : Z) :
  0 <= radius ->
  filter (fun h => is_center h = true) (generateHexGrid radius) = [createHex 0 0].
Proof.
  intros Hr. apply filter_unique.
  - apply NoDup_generateHexGrid.
  - apply generateHexGrid_complete. unfold hex_norm. simpl. split; [done | lia].
  - reflexivity.
  - intros h [Hs _]%generateHexGrid_complete Hc.
    unfold is_center in Hc. apply andb_true_iff in Hc as [Hq Hr0].
    apply Z.eqb_eq in Hq, Hr0. destruct h as [hq hr hs]. simpl in *. subst.
    reflexivity.
Qed.

Lemma generateHexGrid_one_center_witness :
  0 <= 3 /\
  filter (fun h => is_center h = true) (generateHexGrid 3) = [createHex 0 0].
Proof.
  assert (H : 0 <= 3) by lia.
  split; [exact H | exact (generateHexGrid_one_center 3 H)].
Defined.

Lemma StronglySorted_seqZ (m n : Z) : StronglySorted Z.lt (seqZ m n).
Proof.
  destruct (Z.le_gt_cases n 0) as [Hn | Hn].
  - rewrite seqZ_nil by done. constructor.
  - rewrite <- (Z2Nat.id n) by lia. generalize (Z.to_nat n) as k. clear Hn.
    intros k. revert m. induction k as [| k IH]; intros m.
    + rewrite seqZ_nil by (simpl; lia). constructor.
    + rewrite seqZ_cons by lia.
      replace (Z.pred (Z.of_nat (S k))) with (Z.of_nat k) by lia.
      constructor; [apply IH |].
      apply Forall_forall. intros x Hx%elem_of_seqZ. lia.
Qed.

Lemma StronglySorted_row (radius q : Z) : StronglySorted hex_lt (row radius q).
Proof.
  unfold row. eapply StronglySorted_fmap; [| apply StronglySorted_seqZ].
  intros x y Hxy. right. simpl. split; [done | exact Hxy].
Qed.

Lemma StronglySorted_rows (radius : Z) (cols : list Z) :
  StronglySorted Z.lt cols -> StronglySorted hex_lt (cols ≫= row radius).
Proof.
  induction 1 as [| c cols Hcols IH Hc]; csimpl; [constructor |].
  apply StronglySorted_app_2; [| apply StronglySorted_row | exact IH].
  intros h1 h2 (r1 & -> & _)%elem_of_row (c2 & (r2 & -> & _)%elem_of_row & Hc2)%list_elem_of_bind.
  left. simpl. rewrite Forall_forall in Hc. by apply Hc.
Qed.

(** X3. The grid is listed column by column, and within a column by
    increasing [r]: it is strictly sorted by [(q, r)]. *)
Theorem generateHexGrid_sorted (radius : Z) :
  StronglySorted hex_lt (generateHexGrid radius).
Proof.
  rewrite generateHexGrid_rows. apply StronglySorted_rows, StronglySorted_seqZ.
Qed.

(** ** Coordinate projection *)

(** X4. For a size other than zero, distinct cells are projected to
    distinct pixel offsets: the projection determines [q] and [r]. *)
Theorem hexToPixel_injective (h1 h2 : Hex) (size : R) :
  size <> 0%R ->
  hexToPixel h1 size = hexToPixel h2 size ->
  q h1 = q h2 /\ r h1 = r h2.
Proof.
  intros Hsize Heq. unfold hexToPixel in Heq. injection Heq as Hx Hy.
  assert (Hsqrt : (0 < sqrt 3)%R) by (apply sqrt_lt_R0; lra).
  assert (Hq : IZR (q h1) = IZR (q h2)).
  { apply (Rmult_eq_reg_l (size * (3 / 2))%R); [exact Hx |].
    apply Rmult_integral_contrapositive_currified; lra. }
  split; [by apply eq_IZR |].
  apply eq_IZR.
  assert (Hr : (IZR (r h1) + IZR (q h1) / 2 = IZR (r h2) + IZR (q h2) / 2)%R).
  { apply (Rmult_eq_reg_l (size * sqrt 3)%R); [exact Hy |].
    apply Rmult_integral_contrapositive_currified; lra. }
  rewrite Hq in Hr. lra.
Qed.

Lemma hexToPixel_injective_witness :
  75%R <> 0%R /\
  hexToPixel (createHex 1 2) 75 = hexToPixel (mkHex 1 2 0) 75 /\
  q (createHex 1 2) = q (mkHex 1 2 0) /\ r (createHex 1 2) = r (mkHex 1 2 0).
Proof.
  assert (H1 : 75%R <> 0%R) by lra.
  assert (H2 : hexToPixel (createHex 1 2) 75 = hexToPixel (mkHex 1 2 0) 75) by reflexivity.
  split; [exact H1 |]. split; [exact H2 |].
  exact (hexToPixel_injective (createHex 1 2) (mkHex 1 2 0) 75 H1 H2).
Defined.

(** ** Renderer *)

(** X6. The path of [drawHex] joins six vertices and starts at the
    vertex [(centerX + size, centerY)], the one at angle [0]. *)
Theorem drawHex_vertices (centerX centerY size : R) :
  count_ops is_lineTo (drawHex centerX centerY size) = 6%nat /\
  drawHex centerX centerY size !! 1%nat = Some (lineTo (centerX + size) centerY).
Proof.
  split; [reflexivity |].
  unfold drawHex. cbn [fmap list_fmap seq app lookup list_lookup INR].
  do 2 f_equal.
  - rewrite Rmult_0_r, cos_0. ring.
  - rewrite Rmult_0_r, sin_0. ring.
Qed.

Lemma count_ops_app (kind : canvas_op -> bool) (ops1 ops2 : list canvas_op) :
  count_ops kind (ops1 ++ ops2) = (count_ops kind ops1 + count_ops kind ops2)%nat.
Proof. unfold count_ops. by rewrite filter_app, length_app. Qed.

Lemma count_ops_cons_false (kind : canvas_op -> bool) (op : canvas_op)
    (ops : list canvas_op) :
  kind op = false -> count_ops kind (op :: ops) = count_ops kind ops.
Proof.
  intros Hop. unfold count_ops. by rewrite filter_cons_False by (by rewrite Hop).
Qed.

Lemma count_ops_renderTile (size : R) (canvas : Canvas) (offset : Pixel.t) (tile : Tile) :
  count_ops is_fill (renderTile size canvas offset tile) = 1%nat /\
  count_ops is_stroke (renderTile size canvas offset tile) = 1%nat /\
  count_ops is_fillText (renderTile size canvas offset tile) =
    if truthy (tile_name tile) then 3%nat else 0%nat.
Proof.
  unfold renderTile, drawHex. cbn [fmap list_fmap seq app].
  destruct (truthy (tile_name tile)); repeat split; reflexivity.
Qed.

(** X7. [renderGrid] fills and strokes exactly one hexagon per tile, and
    draws exactly three texts for each tile with a truthy name and none
    for the others. *)
Theorem renderGrid_counts (tiles : list Tile) (size : R) (canvas : Canvas)
    (offset : Pixel.t) :
  count_ops is_fill (renderGrid tiles size canvas offset) = length tiles /\
  count_ops is_stroke (renderGrid tiles size canvas offset) = length tiles /\
  count_ops is_fillText (renderGrid tiles size canvas offset) =
    (3 * length (filter (fun t => truthy (tile_name t) = true) tiles))%nat.
Proof.
  rewrite renderGrid_ops, !count_ops_cons_false by done.
  induction tiles as [| tile tiles (IH1 & IH2 & IH3)]; [done |].
  rewrite !bind_cons, !count_ops_app.
  destruct (count_ops_renderTile size canvas offset tile) as (-> & -> & ->).
  rewrite IH1, IH2, IH3.
  destruct (truthy (tile_name tile)) eqn:Hname.
  - rewrite filter_cons_True by done. cbn [length]. repeat split; lia.
  - rewrite filter_cons_False by (by rewrite Hname). repeat split; lia.
Qed.

Lemma styles_ok_renderTile (size : R) (canvas : Canvas) (offset : Pixel.t)
    (tile : Tile) (rest : list canvas_op) (style : option string) :
  (forall style', styles_ok style' rest = true) ->
  styles_ok style (renderTile size canvas offset tile ++ rest) = true.
Proof.
  intros Hrest. unfold renderTile, drawHex. cbn [fmap list_fmap seq app].
  destruct (truthy (tile_name tile)); cbn; apply Hrest.
Qed.

(** X8. Whatever [fillStyle] the context has when [renderGrid] starts,
    every hexagon is filled with the tile colour and every text is drawn in
    white: the white of one tile's labels never colours the next hexagon. *)
Theorem renderGrid_fill_styles (tiles : list Tile) (size : R) (canvas : Canvas)
    (offset : Pixel.t) (style : option string) :
  styles_ok style (renderGrid tiles size canvas offset) = true.
Proof.
  rewrite renderGrid_ops. cbn [styles_ok]. revert style.
  induction tiles as [| tile tiles IH]; intros style; [done |].
  rewrite bind_cons. apply styles_ok_renderTile, IH.
Qed.

(** ** Random indices and shuffle *)

(** X10. [Math.floor(Math.random() * n)] ranges over exactly the indices
    below [n]: a draw in [[0, 1)] gives an index below [n], and every
    index below [n] is given by some draw. *)
Theorem floor_scaled_range (n : nat) :
  (0 < n)%nat ->
  (forall x : Q, (0 <= x /\ x < 1)%Q -> (floor_scaled x n < n)%nat) /\
  (forall k : nat, (k < n)%nat ->
     exists x : Q, (0 <= x /\ x < 1)%Q /\ floor_scaled x n = k).
Proof.
  intros Hn. split; [intros x Hx; by apply floor_scaled_lt |].
  intros k Hk. exists (Z.of_nat k # Pos.of_nat n)%Q.
  assert (Hpos : Z.pos (Pos.of_nat n) = Z.of_nat n).
  { destruct n; [lia |]. by rewrite <- Pos.of_nat_succ, Zpos_P_of_succ_nat, Nat2Z.inj_succ. }
  split; [split |].
  - unfold Qle. cbn [Qnum Qden]. lia.
  - unfold Qlt. cbn [Qnum Qden]. rewrite Hpos. lia.
  - unfold floor_scaled. cbn [Qmult inject_Z Qnum Qden Qfloor].
    rewrite Pos.mul_1_r, Hpos, Z.div_mul by lia. apply Nat2Z.id.
Qed.

Lemma floor_scaled_range_witness :
  (0 < 5)%nat /\ (floor_scaled (3 # 7) 5 < 5)%nat.
Proof.
  assert (H : (0 < 5)%nat) by lia.
  split; [exact H |].
  apply (proj1 (floor_scaled_range 5 H)). split; done.
Defined.

Section ShuffleMore.
Context {T : Type}.
Implicit Types (w : world T) (a b : list T).

Lemma swap_tape (copy : loc) (i j : nat) w : tape (swap copy i j w).2 = tape w.
Proof.
  unfold swap, mbind, M_bind, bind, read. cbn.
  destruct (default [] (store w !! copy) !! j); [| done].
  by destruct (default [] (store w !! copy) !! i).
Qed.

Lemma swap_others (copy : loc) (i j : nat) w a :
  store w !! copy = Some a ->
  exists b, swap copy i j w = (tt, {| store := <[copy := b]> (store w); tape := tape w |})
            /\ forall k : nat, k ≠ i -> k ≠ j -> b !! k = a !! k.
Proof.
  intros Hcopy. unfold swap, mbind, M_bind, bind. rewrite (read_spec copy w a Hcopy).
  destruct (a !! j) as [aj |] eqn:Hj; [destruct (a !! i) as [ai |] eqn:Hi |].
  - eexists. split; [reflexivity |]. intros k Hki Hkj.
    by rewrite !list_lookup_insert_ne by done.
  - exists a. split; [| done]. unfold mret, M_ret, ret.
    rewrite list_insert_id by done. by destruct w.
  - exists a. split; [| done]. unfold mret, M_ret, ret.
    rewrite list_insert_id by done. by destruct w.
Qed.

Lemma shuffle_loop_tape (copy : loc) (i : nat) w (k : nat) :
  tape (shuffle_loop copy i w).2 k = tape w (i + k)%nat.
Proof.
  revert w. induction i as [| i IH]; intros w; [done |].
  cbn [shuffle_loop]. unfold mbind at 1 2, M_bind at 1 2, bind at 1 2.
  cbn [Math_random].
  set (w1 := {| store := store w; tape := fun n => tape w (S n) |}).
  set (j := floor_scaled (tape w O) (S i + 1)).
  pose proof (swap_tape copy (S i) j w1) as Hsw.
  destruct (swap copy (S i) j w1) as [[] w2]. cbn [snd] in Hsw.
  rewrite IH, Hsw. reflexivity.
Qed.

(** Cells above the loop index are final: the remaining iterations only
    exchange cells at or below it. *)
Lemma shuffle_loop_above (copy : loc) (i : nat) w a :
  store w !! copy = Some a ->
  unit_draws (tape w) ->
  exists b, store (shuffle_loop copy i w).2 !! copy = Some b /\
            forall k : nat, (i < k)%nat -> b !! k = a !! k.
Proof.
  revert w a. induction i as [| i IH]; intros w a Hcopy Hu.
  - by exists a.
  - cbn [shuffle_loop]. unfold mbind at 1 2, M_bind at 1 2, bind at 1 2.
    cbn [Math_random].
    set (w1 := {| store := store w; tape := fun n => tape w (S n) |}).
    set (j := floor_scaled (tape w O) (S i + 1)).
    assert (Hj : (j < S i + 1)%nat) by (apply floor_scaled_lt; [apply Hu | lia]).
    assert (Hu1 : unit_draws (tape w1)) by (intros n; apply Hu).
    destruct (swap_others copy (S i) j w1 a Hcopy) as (b1 & Hswap & Hothers).
    assert (Hb1 : forall k : nat, (S i < k)%nat -> b1 !! k = a !! k).
    { intros k Hk. apply Hothers; lia. }
    rewrite Hswap.
    set (w2 := {| store := <[copy := b1]> (store w1); tape := tape w1 |}).
    destruct (IH w2 b1) as (b & Hb & Habove).
    { subst w2. cbn [store]. apply list_lookup_insert_eq. by eapply lookup_lt_Some. }
    { exact Hu1. }
    exists b. split; [exact Hb |]. intros k Hk.
    rewrite Habove by lia. apply Hb1. lia.
Qed.
Lemma shuffle_loop_S (copy : loc) (i : nat) w :
  shuffle_loop copy (S i) w =
  (let (_, w2) := swap copy (S i) (floor_scaled (tape w O) (S i + 1))
                    {| store := store w; tape := fun k => tape w (S k) |} in
   shuffle_loop copy i w2).
Proof. reflexivity. Qed.

Lemma shuffle_unfold (array : loc) w a :
  store w !! array = Some a ->
  shuffle array w =
  (length (store w),
   (shuffle_loop (length (store w)) (length a - 1)
      {| store := store w ++ [a]; tape := tape w |}).2).
Proof.
  intros Harr. unfold shuffle, mbind, M_bind, bind.
  rewrite (read_spec array w a Harr). unfold alloc.
  by destruct (shuffle_loop _ _ _) as [[] w'].
Qed.
End ShuffleMore.

(** X11. [shuffle] calls [Math.random] exactly [length - 1] times (not at
    all for an empty array): afterwards the tape has advanced by that many
    draws. *)
Theorem shuffle_draws {T : Type} (w : world T) (array : loc) (a : list T) :
  store w !! array = Some a ->
  forall k : nat, tape (shuffle array w).2 k = tape w (length a - 1 + k)%nat.
Proof.
  intros Harr k. unfold shuffle, mbind, M_bind, bind.
  rewrite (read_spec array w a Harr). unfold alloc.
  pose proof (shuffle_loop_tape (length (store w)) (length a - 1)
                {| store := store w ++ [a]; tape := tape w |} k) as Htape.
  destruct (shuffle_loop _ _ _) as [[] w']. exact Htape.
Qed.

Lemma shuffle_draws_witness :
  store sample_numbers !! O = Some [1; 2; 3; 4; 5]%nat /\
  tape (shuffle O sample_numbers).2 O = tape sample_numbers 4.
Proof.
  assert (H : store sample_numbers !! O = Some [1; 2; 3; 4; 5]%nat) by reflexivity.
  split; [exact H | exact (shuffle_draws sample_numbers O _ H O)].
Defined.

(** X12. For an array with at most one element [shuffle] returns an equal
    copy at a fresh location and draws nothing. *)
Theorem shuffle_small {T : Type} (w : world T) (array : loc) (a : list T) :
  store w !! array = Some a ->
  (length a <= 1)%nat ->
  shuffle array w = (length (store w), {| store := store w ++ [a]; tape := tape w |}).
Proof.
  intros Harr Hlen. unfold shuffle, mbind, M_bind, bind.
  rewrite (read_spec array w a Harr). unfold alloc.
  replace (length a - 1)%nat with O by lia. reflexivity.
Qed.

Lemma shuffle_small_witness :
  store {| store := [[7%nat]]; tape := sample_tape |} !! O = Some [7%nat] /\
  (length [7%nat] <= 1)%nat /\
  store (shuffle O {| store := [[7%nat]]; tape := sample_tape |}).2 = [[7]; [7]]%nat.
Proof.
  assert (H1 : store {| store := [[7%nat]]; tape := sample_tape |} !! O = Some [7%nat])
    by reflexivity.
  assert (H2 : (length [7%nat] <= 1)%nat) by (simpl; lia).
  split; [exact H1 |]. split; [exact H2 |].
  by rewrite (shuffle_small _ O [7%nat] H1 H2).
Defined.

(** X13. The first draw decides the last cell: with draws in [[0, 1)],
    the last element of the shuffled copy is the element of the argument at
    index [Math.floor(x * length)], [x] being the first draw. *)
Theorem shuffle_last_cell {T : Type} (w : world T) (array : loc) (a : list T) :
  store w !! array = Some a ->
  a ≠ [] ->
  unit_draws (tape w) ->
  exists b, store (shuffle array w).2 !! (shuffle array w).1 = Some b /\
            b !! (length a - 1)%nat = a !! floor_scaled (tape w O) (length a).
Proof.
  intros Harr Hne Hu.
  rewrite (shuffle_unfold array w a Harr). cbn [fst snd].
  destruct (length a) as [| n] eqn:Hlen; [by destruct a |].
  replace (S n - 1)%nat with n by lia.
  set (copy := length (store w)).
  set (w0 := {| store := store w ++ [a]; tape := tape w |}).
  assert (Hcopy : store w0 !! copy = Some a) by (subst w0 copy; apply list_lookup_middle; done).
  destruct n as [| n].
  - exists a. split; [exact Hcopy |].
    pose proof (floor_scaled_lt (tape w O) 1 (Hu O) ltac:(lia)) as Hj.
    by replace (floor_scaled (tape w O) 1) with O by lia.
  - rewrite shuffle_loop_S. change (tape w0 O) with (tape w O).
    replace (S n + 1)%nat with (S (S n)) by lia.
    set (w1 := {| store := store w0; tape := fun k => tape w0 (S k) |}).
    set (j := floor_scaled (tape w O) (S (S n))).
    assert (Hj : (j < S (S n))%nat) by (apply floor_scaled_lt; [apply Hu | lia]).
    destruct (lookup_lt_is_Some_2 a j ltac:(lia)) as [aj Haj].
    destruct (lookup_lt_is_Some_2 a (S n) ltac:(lia)) as [ai Hai].
    rewrite (swap_in_range copy (S n) j w1 a ai aj Hcopy Hai Haj).
    set (b1 := <[j := ai]> (<[S n := aj]> a)).
    set (w2 := {| store := <[copy := b1]> (store w1); tape := tape w1 |}).
    destruct (shuffle_loop_above copy n w2 b1) as (b & Hb & Habove).
    { subst w2. cbn [store]. apply list_lookup_insert_eq. by eapply lookup_lt_Some. }
    { intros k. apply Hu. }
    exists b. split; [exact Hb |].
    rewrite Habove by lia. subst b1. rewrite Haj.
    destruct (decide (j = S n)) as [-> | Hjn].
    + rewrite list_lookup_insert_eq by (rewrite length_insert; lia). congruence.
    + rewrite list_lookup_insert_ne by done.
      by rewrite list_lookup_insert_eq by lia.
Qed.

Lemma shuffle_last_cell_witness :
  store sample_numbers !! O = Some [1; 2; 3; 4; 5]%nat /\
  [1; 2; 3; 4; 5]%nat ≠ [] /\
  unit_draws (tape sample_numbers) /\
  exists b, store (shuffle O sample_numbers).2 !! (shuffle O sample_numbers).1 = Some b /\
            b !! 4%nat = Some 1%nat.
Proof.
  assert (H1 : store sample_numbers !! O = Some [1; 2; 3; 4; 5]%nat) by reflexivity.
  assert (H2 : [1; 2; 3; 4; 5]%nat ≠ []) by done.
  split; [exact H1 |]. split; [exact H2 |]. split; [exact sample_tape_unit |].
  exact (shuffle_last_cell sample_numbers O _ H1 H2 sample_tape_unit).
Defined.

(** ** Board setup: the deck *)

Lemma tile_record_spread (planet : Planet) (hex : Hex) :
  tile_record (spread (Some planet) hex) = Some planet.
Proof. by destruct planet. Qed.

(** The records read back from the outer tiles of a layout are the
    records dealt, in order. *)
Lemma place_records (mecatol : Planet) (hexes : list Hex) (dealt : list Planet) :
  (length dealt <= length (filter (fun h => is_center h = false) hexes))%nat ->
  omap tile_record (outer_tiles (place mecatol hexes dealt)) = dealt.
Proof.
  unfold outer_tiles. revert dealt.
  induction hexes as [| hex hexes IH]; intros dealt Hlen.
  - destruct dealt; [done | simpl in Hlen; lia].
  - cbn [place]. destruct (is_center hex) eqn:Hc.
    + rewrite filter_cons_False by by rewrite tile_hex_spread, Hc.
      rewrite filter_cons_False in Hlen by by rewrite Hc.
      by apply IH.
    + rewrite filter_cons_True by by rewrite tile_hex_spread.
      rewrite filter_cons_True in Hlen by done.
      destruct dealt as [| planet dealt]; cbn [head tail length] in *.
      * cbn [omap list_omap spread tile_record tile_name]. apply (IH []). simpl. lia.
      * cbn [omap list_omap]. rewrite tile_record_spread. f_equal. apply IH. lia.
Qed.

(** X14. [Home] leaves every array that existed before it ran, the
    imported catalog among them, as it was: it consumes the copy [shuffle]
    returned.  The records read back from the tiles of the board other
    than the centre, together with the records left on that copy, are
    exactly the catalog's: nothing is lost and nothing is duplicated. *)
Theorem Home_deck_conservation (planets : loc) (mecatol : Planet) (w : world Planet)
    (catalog : list Planet) :
  store w !! planets = Some catalog ->
  unit_draws (tape w) ->
  (forall l : loc, (l < length (store w))%nat ->
     store (Home planets mecatol w).2 !! l = store w !! l) /\
  exists rest : list Planet,
    store (Home planets mecatol w).2 !! (shuffle planets w).1 = Some rest /\
    omap tile_record (outer_tiles (Home planets mecatol w).1) ++ rest ≡ₚ catalog /\
    length rest = (length catalog - 36)%nat.
Proof.
  intros Hcat Hu.
  destruct (Home_spec planets mecatol w catalog Hcat Hu)
    as (dealt & rest & removed & w' & HHome & Hst & Hperm & Hlen).
  destruct (shuffle_spec planets w catalog Hcat) as (b & w1 & Hsh & _).
  rewrite HHome, Hsh. cbn [fst snd]. split.
  - intros l Hl. rewrite Hst. by rewrite lookup_app_l.
  - exists rest. split; [| split].
    + rewrite Hst. by apply list_lookup_middle.
    + rewrite place_records; [exact Hperm |].
      rewrite Hlen. change (length (filter _ (generateHexGrid 3))) with 36%nat. lia.
    + apply Permutation_length in Hperm. rewrite length_app in Hperm. lia.
Qed.

Lemma Home_deck_conservation_witness :
  store (sample_world 40) !! O = Some (sample_catalog 40) /\
  unit_draws (tape (sample_world 40)) /\
  store (Home O sample_mecatol (sample_world 40)).2 !! O = Some (sample_catalog 40).
Proof.
  assert (H1 : store (sample_world 40) !! O = Some (sample_catalog 40)) by reflexivity.
  split; [exact H1 |]. split; [exact sample_tape_unit |].
  pose proof (proj1 (Home_deck_conservation O sample_mecatol (sample_world 40)
                       (sample_catalog 40) H1 sample_tape_unit) O) as Hkept.
  etransitivity; [apply Hkept; simpl; lia | exact H1].
Defined.

(** ** Interaction controller *)

(** X15. The pointer pans only while a button is held: after a release
    (or before any press) pointer moves leave every ref as it is. *)
Theorem pan_only_while_dragging (props : Props) (moves : list Point.t) :
  (forall rf : Refs,
     moves_from props (handleMouseUp rf) moves = handleMouseUp rf) /\
  moves_from props initial_refs moves = initial_refs.
Proof.
  split; [intros rf |]; by apply moves_from_idle.
Qed.

Lemma final_position_cons (start p : Point.t) (moves : list Point.t) :
  final_position start (p :: moves) = final_position p moves.
Proof.
  unfold final_position. rewrite last_cons. by destruct (last moves).
Qed.

Lemma scaled_sum_telescope (speed : Q) (coord : Point.t -> Q) (moves : list Point.t)
    (start : Point.t) :
  (scaled_sum speed (deltas (coord start) (coord <$> moves)) ==
   (coord (final_position start moves) - coord start) * speed)%Q.
Proof.
  revert start. induction moves as [| p moves IH]; intros start.
  - cbn. ring.
  - rewrite final_position_cons. cbn [fmap list_fmap deltas scaled_sum foldr].
    fold (scaled_sum speed (deltas (coord p) (coord <$> moves))).
    rewrite (IH p). ring.
Qed.

(** X16. The pan made by a drag depends only on where it starts and
    ends: the offset changes by the pan speed times the displacement from
    the press position to the last pointer position, whatever the path. *)
Theorem pan_net_displacement (props : Props) (rf : Refs) (x0 y0 : Q)
    (moves : list Point.t) :
  (Point.x (offset (drag props x0 y0 moves rf)) ==
     Point.x (offset rf)
     + (Point.x (final_position (Point.mk x0 y0) moves) - x0) * panSpeed props /\
   Point.y (offset (drag props x0 y0 moves rf)) ==
     Point.y (offset rf)
     + (Point.y (final_position (Point.mk x0 y0) moves) - y0) * panSpeed props)%Q.
Proof.
  destruct (moves_from_dragging props moves (handleMouseDown x0 y0 rf) eq_refl) as [Hx Hy].
  unfold drag. rewrite Hx, Hy. cbn [handleMouseDown offset lastMousePosition].
  change x0 with (Point.x (Point.mk x0 y0)) at 1 3.
  change y0 with (Point.y (Point.mk x0 y0)) at 2 4.
  rewrite (scaled_sum_telescope (panSpeed props) Point.x moves (Point.mk x0 y0)).
  rewrite (scaled_sum_telescope (panSpeed props) Point.y moves (Point.mk x0 y0)).
  split; reflexivity.
Qed.

(** X17. A wheel event moves the zoom factor in the direction of the
    scroll and stops at the ends of the interval: with a non-negative zoom
    speed and the zoom in [[0.5, 2]], scrolling up ([deltaY < 0]) never
    lowers it and leaves a zoom of [2] at [2]; scrolling down never raises
    it and leaves a zoom of [0.5] at [0.5]. *)
Theorem handleWheel_direction (props : Props) (deltaY : Q) (rf : Refs) :
  zoom_in_range (zoom rf) ->
  (0 <= zoomSpeed props)%Q ->
  ((deltaY < 0 ->
    zoom rf <= zoom (handleWheel props deltaY rf) /\
    (zoom rf == 2 -> zoom (handleWheel props deltaY rf) == 2)) /\
   (0 <= deltaY ->
    zoom (handleWheel props deltaY rf) <= zoom rf /\
    (zoom rf == 0.5 -> zoom (handleWheel props deltaY rf) == 0.5)))%Q.
Proof.
  intros [Hlo Hhi] Hspeed. unfold handleWheel. cbn [zoom].
  destruct (Qlt_le_dec deltaY 0) as [Hneg | Hpos].
  - split; [intros _ | intros Hge; Lqa.lra].
    set (a := (zoom rf + 0.1 * zoomSpeed props)%Q).
    destruct (Q.max_spec a 0.5) as [[H1 H2] | [H1 H2]];
      destruct (Q.min_spec (Qmax a 0.5) 2) as [[H3 H4] | [H3 H4]];
      rewrite H4; subst a; split; intros; Lqa.lra.
  - split; [intros Hlt; Lqa.lra | intros _].
    set (a := (zoom rf + - 0.1 * zoomSpeed props)%Q).
    destruct (Q.max_spec a 0.5) as [[H1 H2] | [H1 H2]];
      destruct (Q.min_spec (Qmax a 0.5) 2) as [[H3 H4] | [H3 H4]];
      rewrite H4; subst a; split; intros; Lqa.lra.
Qed.

Lemma handleWheel_direction_witness :
  zoom_in_range (zoom initial_refs) /\
  (0 <= zoomSpeed default_props)%Q /\
  (zoom initial_refs <= zoom (handleWheel default_props (-120) initial_refs))%Q.
Proof.
  assert (H1 : zoom_in_range (zoom initial_refs)) by by vm_compute.
  assert (H2 : (0 <= zoomSpeed default_props)%Q) by by vm_compute.
  split; [exact H1 |]. split; [exact H2 |].
  apply (proj1 (handleWheel_direction default_props (-120) initial_refs H1 H2)).
  by vm_compute.
Defined.

(** X18. Zooming and panning do not interfere: a wheel event commutes
    with a press, with a move and with a release. *)
Theorem wheel_commutes (props : Props) (deltaY x y : Q) (rf : Refs) :
  handleWheel props deltaY (handleMouseDown x y rf) =
    handleMouseDown x y (handleWheel props deltaY rf) /\
  handleWheel props deltaY (handleMouseMove props x y rf) =
    handleMouseMove props x y (handleWheel props deltaY rf) /\
  handleWheel props deltaY (handleMouseUp rf) =
    handleMouseUp (handleWheel props deltaY rf).
Proof.
  split; [reflexivity |]. split; [| reflexivity].
  unfold handleMouseMove. cbn [handleWheel isDragging].
  by destruct (negb (isDragging rf)).
Qed.

(** ** The mounted view *)

(** On a mounted view every input event reaches exactly its handler. *)
Lemma step_refs_mounted (props : Props) (sys : System) :
  mounted sys ->
  (forall deltaY, refs (step props sys (Wheel deltaY)) = handleWheel props deltaY (refs sys)) /\
  (forall x y, refs (step props sys (MouseDown x y)) = handleMouseDown x y (refs sys)) /\
  (forall x y, refs (step props sys (MouseMove x y)) = handleMouseMove props x y (refs sys)) /\
  refs (step props sys MouseUp) = handleMouseUp (refs sys) /\
  refs (step props sys MouseLeave) = handleMouseUp (refs sys).
Proof.
  intros [Hl _]. cbn [step]. unfold dispatch. rewrite Hl. repeat split; reflexivity.
Qed.

(** X19. While the view is mounted there is always exactly one
    animation-frame request outstanding, the one [frameRef] holds, and
    exactly the five listeners of the effect are attached: the loop never
    schedules two redraws for one frame and never stops. *)
Theorem mounted_invariant (props : Props) (evs : list event) :
  listeners (run props (effect initial_system) evs) = attached /\
  pending (run props (effect initial_system) evs) =
    [frameRef (refs (run props (effect initial_system) evs))].
Proof. apply run_mounted, effect_mounted. by split. Qed.

Lemma dispatch_drawn (props : Props) (ev : event) (sys : System) :
  drawn (dispatch props ev sys) = drawn sys.
Proof. apply dispatch_frame. Qed.

Lemma run_drawn_mounted (props : Props) (evs : list event) (sys : System) :
  mounted sys ->
  length (drawn (run props sys evs)) = (length (drawn sys) + frames evs)%nat.
Proof.
  unfold run. revert sys. induction evs as [| ev evs IH]; intros sys Hm.
  - cbn. lia.
  - cbn [foldl]. rewrite (IH _ (step_mounted props sys ev Hm)).
    destruct ev; cbn [frames step]; rewrite ?dispatch_drawn; try reflexivity.
    destruct Hm as [_ Hp]. unfold run_frame. rewrite Hp. cbn [foldl].
    unfold render, requestAnimationFrame. cbn [with_refs drawn].
    rewrite length_app. simpl. lia.
Qed.

(** X20. One redraw per animation frame: after any events delivered to
    the mounted view, [renderGrid] has been called exactly as many times as
    frames have run; input and resize events never draw. *)
Theorem redraw_per_frame (props : Props) (evs : list event) :
  length (drawn (run props (effect initial_system) evs)) = frames evs.
Proof.
  rewrite run_drawn_mounted by (apply effect_mounted; by split). reflexivity.
Qed.

Lemma run_sizes_mounted (evs : list event) (sys : System) :
  mounted sys ->
  zoom_in_range (zoom (refs sys)) ->
  Forall (fun call => (37.5 <= call_size call /\ call_size call <= 150)%Q) (drawn sys) ->
  Forall (fun call => (37.5 <= call_size call /\ call_size call <= 150)%Q)
         (drawn (run default_props sys evs)).
Proof.
  unfold run. revert sys. induction evs as [| ev evs IH]; intros sys Hm Hz Hd; [done |].
  cbn [foldl]. apply IH.
  - by apply step_mounted.
  - by apply step_in_range.
  - destruct ev; cbn [step]; rewrite ?dispatch_drawn; try exact Hd.
    destruct Hm as [_ Hp]. unfold run_frame. rewrite Hp. cbn [foldl].
    unfold render, requestAnimationFrame. cbn [with_refs drawn refs hexSize default_props].
    apply Forall_app. split; [exact Hd |]. constructor; [| constructor].
    cbn [call_size]. destruct Hz as [Hlo Hhi]. split; Lqa.lra.
Qed.

(** X21. With the default props every redraw of the mounted view uses a
    hexagon size between [37.5] and [150]: the base size [75] times a zoom
    factor in [[0.5, 2]]. *)
Theorem redraw_sizes (evs : list event) :
  Forall (fun call => (37.5 <= call_size call /\ call_size call <= 150)%Q)
         (drawn (run default_props (effect initial_system) evs)).
Proof.
  apply run_sizes_mounted.
  - apply effect_mounted. by split.
  - by vm_compute.
  - constructor.
Qed.

(** X22. Re-running the effect after its cleanup (as happens when one of
    its dependencies changes) mounts the view again, with one outstanding
    request and the five listeners, and keeps zoom, pan offset and the
    redraws made so far. *)
Theorem remount_keeps_view (sys : System) :
  mounted sys ->
  mounted (effect (cleanup sys)) /\
  zoom (refs (effect (cleanup sys))) = zoom (refs sys) /\
  offset (refs (effect (cleanup sys))) = offset (refs sys) /\
  drawn (effect (cleanup sys)) = drawn sys.
Proof.
  intros Hm. destruct (cleanup_torn_down sys Hm) as [Ht Hd].
  split; [by apply effect_mounted |]. repeat split; try reflexivity.
Qed.

Lemma remount_keeps_view_witness :
  mounted (effect initial_system) /\
  mounted (effect (cleanup (effect initial_system))).
Proof.
  assert (H : mounted (effect initial_system)) by (apply effect_mounted; by split).
  split; [exact H | exact (proj1 (remount_keeps_view _ H))].
Defined.

Lemma moves_idle_mounted (props : Props) (moves : list Point.t) (sys : System) :
  mounted sys ->
  isDragging (refs sys) = false ->
  refs (run props sys ((fun p => MouseMove (Point.x p) (Point.y p)) <$> moves)) = refs sys.
Proof.
  unfold run. revert sys. induction moves as [| p moves IH]; intros sys Hm Hidle; [done |].
  cbn [fmap list_fmap foldl].
  destruct (step_refs_mounted props sys Hm) as (_ & _ & Hmove & _).
  assert (Hrefs : refs (step props sys (MouseMove (Point.x p) (Point.y p))) = refs sys).
  { rewrite Hmove. unfold handleMouseMove. by rewrite Hidle. }
  rewrite IH; [exact Hrefs | by apply step_mounted | by rewrite Hrefs].
Qed.

(** X23. Leaving the canvas ends a drag like releasing the button does:
    on the mounted view, after a [mouseleave] (or a [mouseup]) pointer
    moves no longer pan, whatever the state of the drag was. *)
Theorem mouseleave_ends_drag (props : Props) (sys : System) (moves : list Point.t) :
  mounted sys ->
  offset (refs (run props (step props sys MouseLeave)
                   ((fun p => MouseMove (Point.x p) (Point.y p)) <$> moves)))
    = offset (refs sys) /\
  offset (refs (run props (step props sys MouseUp)
                   ((fun p => MouseMove (Point.x p) (Point.y p)) <$> moves)))
    = offset (refs sys).
Proof.
  intros Hm. destruct (step_refs_mounted props sys Hm) as (_ & _ & _ & Hup & Hleave).
  split.
  - rewrite moves_idle_mounted; [by rewrite Hleave | by apply step_mounted |].
    by rewrite Hleave.
  - rewrite moves_idle_mounted; [by rewrite Hup | by apply step_mounted |].
    by rewrite Hup.
Qed.

Lemma mouseleave_ends_drag_witness :
  mounted (run default_props (effect initial_system) [MouseDown 10 10; MouseMove 15 12]) /\
  offset (refs (run default_props
                  (step default_props
                     (run default_props (effect initial_system)
                        [MouseDown 10 10; MouseMove 15 12]) MouseLeave)
                  ((fun p => MouseMove (Point.x p) (Point.y p)) <$> [Point.mk 40 40])))
    = Point.mk (0 + (15 - 10) * 2) (0 + (12 - 10) * 2).
Proof.
  assert (H : mounted (run default_props (effect initial_system)
                         [MouseDown 10 10; MouseMove 15 12])).
  { apply run_mounted, effect_mounted. by split. }
  split; [exact H |].
  exact (proj1 (mouseleave_ends_drag default_props _ [Point.mk 40 40] H)).
Defined.

(** X24. On the mounted view each input event runs exactly its handler,
    once: [wheel] runs [handleWheel], [mousedown] [handleMouseDown],
    [mousemove] [handleMouseMove], [mouseup] and [mouseleave]
    [handleMouseUp]; none of them draws, attaches or schedules anything. *)
Theorem input_events_mounted (props : Props) (sys : System) (ev : event) :
  mounted sys ->
  ev ≠ Frame ->
  refs (step props sys ev) =
    match ev with
    | Wheel deltaY => handleWheel props deltaY (refs sys)
    | MouseDown x y => handleMouseDown x y (refs sys)
    | MouseMove x y => handleMouseMove props x y (refs sys)
    | MouseUp | MouseLeave => handleMouseUp (refs sys)
    | Resize _ _ | Frame => refs sys
    end /\
  listeners (step props sys ev) = listeners sys /\
  pending (step props sys ev) = pending sys /\
  drawn (step props sys ev) = drawn sys.
Proof.
  intros Hm Hev.
  destruct (step_refs_mounted props sys Hm) as (Hw & Hd & Hmv & Hup & Hlv).
  destruct ev; try done; cbn [step].
  1-5: (split; [first [apply Hw | apply Hd | apply Hmv | exact Hup | exact Hlv] |];
        destruct (dispatch_frame props ltac:(constructor; eassumption) sys)
          as (Hl' & Hp' & Hd' & _)).
  all: repeat split; try reflexivity; apply dispatch_frame.
Qed.

Lemma input_events_mounted_witness :
  mounted (effect initial_system) /\
  Wheel (-120) ≠ Frame /\
  refs (step default_props (effect initial_system) (Wheel (-120)))
    = handleWheel default_props (-120) (refs (effect initial_system)).
Proof.
  assert (H1 : mounted (effect initial_system)) by (apply effect_mounted; by split).
  assert (H2 : Wheel (-120) ≠ Frame) by done.
  split; [exact H1 |]. split; [exact H2 |].
  exact (proj1 (input_events_mounted default_props _ _ H1 H2)).
Defined.
